(** * Amazon Locker System: the allocation engine of [AmazonLocker.cpp]

    A shallow embedding of [LockerService] (three FIFO queues of free locker
    identifiers and the table of active tickets) together with the properties
    of deposit, pickup and the expiry sweep.

    Conventions of the embedding.
    - [long long] values are integers of [Z]; the only arithmetic that can
      leave the 64-bit range is the subtraction in [cleanup], which is
      written with its two's-complement wrap-around ([sub_ll]).
    - [std::deque<std::string>] is a [list string], front of the deque first.
    - [std::unordered_map<std::string, Ticket>] is a [gmap string Ticket].
      The order in which the C++ container is traversed is unspecified, so
      [cleanup] takes the traversal order as an argument and every statement
      about it quantifies over all orders that enumerate the table.
    - The clock is read once per operation; its reading is the argument
      [now] of [deposit] and [cleanup].
    - A thrown exception is the left injection of the result; the state
      component is the state of the service once the exception has left the
      member function.
    - The mutex serialises the three operations; the embedding is the
      sequential behaviour of one operation at a time. *)

From Stdlib Require Import Ascii.
From stdpp Require Import gmap strings list fin_maps pretty relations.

Local Open Scope Z_scope.
#[local] Set Warnings "-clear-no-such-hyp".

(** ** Core domain *)

Inductive Size := SMALL | MEDIUM | LARGE.

#[global] Instance Size_eq_dec : EqDecision Size.
Proof. solve_decision. Defined.

Record Ticket := mkTicket {
  lockerId : string;
  code : string;
  creationTime : Z
}.

Inductive exception :=
| runtime_error (what : string)
| invalid_argument (what : string).

(** ** Service state *)

Record LockerService := mkService {
  queues0 : list string;   (* queues[0], SMALL  *)
  queues1 : list string;   (* queues[1], MEDIUM *)
  queues2 : list string;   (* queues[2], LARGE  *)
  activeTickets : gmap string Ticket
}.

Definition set_queues0 (q : list string) (svc : LockerService) : LockerService :=
  mkService q (queues1 svc) (queues2 svc) (activeTickets svc).

Definition set_queues1 (q : list string) (svc : LockerService) : LockerService :=
  mkService (queues0 svc) q (queues2 svc) (activeTickets svc).

Definition set_queues2 (q : list string) (svc : LockerService) : LockerService :=
  mkService (queues0 svc) (queues1 svc) q (activeTickets svc).

Definition set_activeTickets (m : gmap string Ticket) (svc : LockerService)
  : LockerService :=
  mkService (queues0 svc) (queues1 svc) (queues2 svc) m.

Definition sizeToInt (s : Size) : nat :=
  match s with SMALL => 0%nat | MEDIUM => 1%nat | LARGE => 2%nat end.

Definition queues (svc : LockerService) (i : nat) : list string :=
  match i with
  | O => queues0 svc
  | S O => queues1 svc
  | _ => queues2 svc
  end.

Definition sizeToString (s : Size) : string :=
  match s with
  | SMALL => "SMALL"
  | MEDIUM => "MEDIUM"
  | LARGE => "LARGE"
  end.

(** [std::to_string] on a [long long]: decimal digits, a leading minus sign
    for negative values. *)
Definition to_string (z : Z) : string := pretty z.

(** ** Private helpers *)

(** The cascade of [findBestFit]: the front of the first non-empty queue,
    from the requested size upward, is popped and returned; the empty string
    signals failure. *)
Definition findBestFit (requestedSize : Size) (svc : LockerService)
  : string * LockerService :=
  match requestedSize with
  | SMALL =>
      match queues0 svc with
      | s :: q => (s, set_queues0 q svc)
      | [] =>
          match queues1 svc with
          | s :: q => (s, set_queues1 q svc)
          | [] =>
              match queues2 svc with
              | s :: q => (s, set_queues2 q svc)
              | [] => (EmptyString, svc)
              end
          end
      end
  | MEDIUM =>
      match queues1 svc with
      | s :: q => (s, set_queues1 q svc)
      | [] =>
          match queues2 svc with
          | s :: q => (s, set_queues2 q svc)
          | [] => (EmptyString, svc)
          end
      end
  | LARGE =>
      match queues2 svc with
      | s :: q => (s, set_queues2 q svc)
      | [] => (EmptyString, svc)
      end
  end.

(** [returnLocker] dispatches on the first character of the identifier and
    pushes at the back of the matching queue.  An identifier with another
    first character is dropped.  [front()] of an empty string is outside the
    defined behaviour of the language; it reads the terminator, which matches
    no branch, and that is what the embedding does. *)
Definition returnLocker (id : string) (svc : LockerService) : LockerService :=
  match id with
  | String c _ =>
      if Ascii.eqb c "S"%char then set_queues0 (queues0 svc ++ [id]) svc
      else if Ascii.eqb c "M"%char then set_queues1 (queues1 svc ++ [id]) svc
      else if Ascii.eqb c "L"%char then set_queues2 (queues2 svc ++ [id]) svc
      else svc
  | EmptyString => svc
  end.

(** ** Construction *)

Definition seed (prefix : string) : list string :=
  (fun i : nat => prefix +:+ to_string (Z.of_nat i)) <$> seq 0 10.

Definition init : LockerService :=
  mkService (seed "S-") (seed "M-") (seed "L-") ∅.

(** ** Public operations *)

Definition deposit (requestedSize : Size) (now : Z) (svc : LockerService)
  : (exception + Ticket) * LockerService :=
  let '(bestLockerId, svc1) := findBestFit requestedSize svc in
  match bestLockerId with
  | EmptyString =>
      (inl (runtime_error
              ("No locker available for size " +:+ sizeToString requestedSize)),
       svc1)
  | _ =>
      let code := bestLockerId +:+ "-" +:+ to_string (Z.rem now 10000) in
      let ticket := mkTicket bestLockerId code now in
      (inr ticket,
       set_activeTickets (<[code := ticket]> (activeTickets svc1)) svc1)
  end.

Definition pickup (code : string) (svc : LockerService)
  : (exception + string) * LockerService :=
  match activeTickets svc !! code with
  | None => (inl (invalid_argument ("Invalid or expired code: " +:+ code)), svc)
  | Some ticket =>
      let svc1 := set_activeTickets (delete code (activeTickets svc)) svc in
      let svc2 := returnLocker (lockerId ticket) svc1 in
      (inr ("Locker " +:+ lockerId ticket +:+ " opened. Package retrieved."),
       svc2)
  end.

Definition threeDaysInMillis : Z := 3 * 24 * 60 * 60 * 1000.

(** 64-bit signed wrap-around. *)
Definition wrap_ll (z : Z) : Z := (z + 2 ^ 63) `mod` 2 ^ 64 - 2 ^ 63.

Definition sub_ll (a b : Z) : Z := wrap_ll (a - b).

(** The test of the loop body of [cleanup]. *)
Definition expired (now : Z) (t : Ticket) : bool :=
  threeDaysInMillis <? sub_ll now (creationTime t).

(** What one call of [cleanup] produces: the value handed back to the caller
    (the member function is [void]), the lines written to standard output and
    the state of the service afterwards. *)
Record CleanupRun := mkRun {
  returned : unit;
  printed : list string;
  after : LockerService
}.

(** One iteration of the loop at table entry [e]. *)
Definition cleanup_visit (now : Z) (acc : list string * LockerService)
    (e : string * Ticket) : list string * LockerService :=
  if expired now e.2 then
    let svc1 := returnLocker (lockerId e.2) acc.2 in
    (acc.1 ++ ["Expired package removed from " +:+ lockerId e.2],
     set_activeTickets (delete e.1 (activeTickets svc1)) svc1)
  else acc.

(** [cleanup order now svc]: the loop over the table, visiting its entries in
    the order [order]. *)
Definition cleanup (order : list (string * Ticket)) (now : Z)
    (svc : LockerService) : CleanupRun :=
  let r := foldl (cleanup_visit now) ([], svc) order in
  mkRun tt r.1 r.2.

(** [order] is a traversal of the table of [svc]. *)
Definition traversal (order : list (string * Ticket)) (svc : LockerService)
  : Prop :=
  order ≡ₚ map_to_list (activeTickets svc).


(** ** Size classes, pools and the inventory *)

(** The size class [returnLocker] reads off an identifier. *)
Definition classOf (id : string) : option Size :=
  match id with
  | String c _ =>
      if Ascii.eqb c "S"%char then Some SMALL
      else if Ascii.eqb c "M"%char then Some MEDIUM
      else if Ascii.eqb c "L"%char then Some LARGE
      else None
  | EmptyString => None
  end.

Definition pool (s : Size) (svc : LockerService) : list string :=
  queues svc (sizeToInt s).

Definition set_pool (s : Size) (q : list string) (svc : LockerService)
  : LockerService :=
  match s with
  | SMALL => set_queues0 q svc
  | MEDIUM => set_queues1 q svc
  | LARGE => set_queues2 q svc
  end.

(** The pools [findBestFit] inspects for a requested size, in order. *)
Definition candidates (s : Size) : list Size :=
  match s with
  | SMALL => [SMALL; MEDIUM; LARGE]
  | MEDIUM => [MEDIUM; LARGE]
  | LARGE => [LARGE]
  end.

Definition free (svc : LockerService) : list string :=
  queues0 svc ++ queues1 svc ++ queues2 svc.

Definition tickets (svc : LockerService) : list Ticket :=
  (map_to_list (activeTickets svc)).*2.

Definition occupied (svc : LockerService) : list string :=
  lockerId <$> tickets svc.

Definition inventory : list string := free init.

(** The lockers reclaimed by a sweep that visits [order] at instant [now],
    and the line [cleanup] prints for a locker. *)
Definition reclaimed (order : list (string * Ticket)) (now : Z) : list string :=
  (fun e : string * Ticket => lockerId e.2)
    <$> filter (fun e : string * Ticket => expired now e.2 = true) order.

Definition expiry_line (id : string) : string :=
  "Expired package removed from " +:+ id.

(** ** Reachable states *)

Inductive step : relation LockerService :=
| step_deposit svc requestedSize now :
    step svc (deposit requestedSize now svc).2
| step_pickup svc code :
    step svc (pickup code svc).2
| step_cleanup svc order now :
    traversal order svc ->
    step svc (after (cleanup order now svc)).

Definition reachable (svc : LockerService) : Prop := rtc step init svc.

(** The invariant carried by every reachable state. *)
Record Inv (svc : LockerService) : Prop := mkInv {
  inv_conserve : free svc ++ occupied svc ≡ₚ inventory;
  inv_codes : forall k t,
    activeTickets svc !! k = Some t ->
    code t = k /\
    k = lockerId t +:+ "-" +:+ to_string (Z.rem (creationTime t) 10000);
  inv_pools : forall s, Forall (fun id => classOf id = Some s) (pool s svc)
}.

(** ** Vocabulary of the statements *)

(** The two outcomes of the cascade: every candidate pool is empty and
    nothing changes, or the front of the first non-empty candidate pool is
    popped. *)
Inductive BestFit (requestedSize : Size) (svc : LockerService)
  : string * LockerService -> Prop :=
| BestFit_none :
    (forall s, s ∈ candidates requestedSize -> pool s svc = []) ->
    BestFit requestedSize svc (EmptyString, svc)
| BestFit_pop skipped s rest id q :
    candidates requestedSize = skipped ++ s :: rest ->
    (forall s', s' ∈ skipped -> pool s' svc = []) ->
    pool s svc = id :: q ->
    BestFit requestedSize svc (id, set_pool s q svc).

(** The state change shared by a successful pickup and by the reclamation of
    one expired ticket. *)
Definition release (k id : string) (svc : LockerService) : LockerService :=
  returnLocker id (set_activeTickets (delete k (activeTickets svc)) svc).

(** The keys the loop erases. *)
Definition expired_keys (order : list (string * Ticket)) (now : Z) : list string :=
  (filter (fun e : string * Ticket => expired now e.2 = true) order).*1.

(** Conservation of the inventory: free and occupied lockers together are
    the lockers seeded at construction, as multisets. *)
Definition conserved (svc : LockerService) : Prop :=
  free svc ++ occupied svc ≡ₚ inventory.

(** The two errors of the engine, as the exceptions the code throws. *)
Definition NoCapacity (requestedSize : Size) : exception :=
  runtime_error ("No locker available for size " +:+ sizeToString requestedSize).

Definition InvalidCode (code : string) : exception :=
  invalid_argument ("Invalid or expired code: " +:+ code).

(** The confirmation [pickup] returns. *)
Definition confirmation (id : string) : string :=
  "Locker " +:+ id +:+ " opened. Package retrieved.".

(** The code [deposit] mints for a locker at an instant. *)
Definition mint (id : string) (now : Z) : Ticket :=
  mkTicket id (id +:+ "-" +:+ to_string (Z.rem now 10000)) now.

(** The age of a ticket as an integer, and the condition under which the
    64-bit subtraction of [cleanup] computes it. *)
Definition age (now : Z) (t : Ticket) : Z := now - creationTime t.


(** That [cleanup] hands the reclaimed lockers back to its caller: some
    reading of the returned value yields the list, on every run. *)
Definition returns_reclaimed_list : Prop :=
  exists view : unit -> list string,
    forall order now svc,
      traversal order svc ->
      view (returned (cleanup order now svc)) = reclaimed order now.

(** ** Sample states *)

(** An engine seeded with two SMALL lockers only. *)
Definition two_small : LockerService :=
  mkService ["S-0"; "S-1"] [] [] ∅.

(** [n] deposits of one size at one instant. *)
Definition drain (requestedSize : Size) (n : nat) (now : Z)
    (svc : LockerService) : LockerService :=
  Nat.iter n (fun s => (deposit requestedSize now s).2) svc.

Definition small_drained : LockerService := drain SMALL 10 1000 init.

Definition large_drained : LockerService := drain LARGE 10 1000 init.

Definition one_large : LockerService := (deposit LARGE 1000 init).2.

Definition one_small : LockerService := (deposit SMALL 1000 init).2.

(** Traversals of the tables of the sample states, and instants after the
    deposit at 1000: one past the retention threshold by one millisecond,
    one four days later. *)
Definition one_small_order : list (string * Ticket) :=
  map_to_list (activeTickets one_small).

Definition one_large_order : list (string * Ticket) :=
  map_to_list (activeTickets one_large).


Definition four_days_later : Z := 1000 + 4 * 24 * 60 * 60 * 1000.

Definition swept_large : LockerService :=
  after (cleanup one_large_order four_days_later one_large).

Definition swept_large_order : list (string * Ticket) :=
  map_to_list (activeTickets swept_large).




(** ** The demonstration driver *)

(** [MockClock]: a clock whose reading is a public field, 1000 when the
    object is built. *)
Record MockClock := mkClock { time : Z }.

Definition currentTimeMillis (clk : MockClock) : Z := time clk.

Definition newMockClock : MockClock := mkClock 1000.

(** What [main] acts on: the service, the clock it shares with the service
    and the lines written so far to standard output. *)
Record World := mkWorld {
  service : LockerService;
  mockClock : MockClock;
  cout : list string
}.

(** Statements of the [try] block: a statement either completes with a value
    or throws; the world is threaded through both outcomes. *)
Definition Stmt (A : Type) : Type := World -> (exception + A) * World.

Definition ret {A : Type} (a : A) : Stmt A := fun w => (inr a, w).

Definition bind {A B : Type} (m : Stmt A) (k : A -> Stmt B) : Stmt B :=
  fun w =>
    match m w with
    | (inl e, w1) => (inl e, w1)
    | (inr a, w1) => k a w1
    end.

Notation "x <- m ;; k" := (bind m (fun x => k))
  (at level 100, m at level 60, k at level 100, right associativity).
Notation "m ;;; k" := (bind m (fun _ => k))
  (at level 100, k at level 100, right associativity).

(** [std::cout << ... << std::endl]. *)
Definition println (line : string) : Stmt unit :=
  fun w => (inr tt, mkWorld (service w) (mockClock w) (cout w ++ [line])).

Definition call_deposit (requestedSize : Size) : Stmt Ticket :=
  fun w =>
    let r := deposit requestedSize (currentTimeMillis (mockClock w)) (service w) in
    (r.1, mkWorld r.2 (mockClock w) (cout w)).

Definition call_pickup (code : string) : Stmt string :=
  fun w =>
    let r := pickup code (service w) in
    (r.1, mkWorld r.2 (mockClock w) (cout w)).

(** [service.cleanup()], the table being visited in the order [order]. *)
Definition call_cleanup (order : list (string * Ticket)) : Stmt unit :=
  fun w =>
    let run := cleanup order (currentTimeMillis (mockClock w)) (service w) in
    (inr (returned run),
     mkWorld (after run) (mockClock w) (cout w ++ printed run)).

(** [mockClock->time += d]. *)
Definition advance (d : Z) : Stmt unit :=
  fun w =>
    (inr tt,
     mkWorld (service w) (mkClock (time (mockClock w) + d)) (cout w)).

(** [for (int i = 0; i < n; ++i) service.deposit(requestedSize);] *)
Fixpoint repeat_deposit (n : nat) (requestedSize : Size) : Stmt unit :=
  match n with
  | O => ret tt
  | S n' => call_deposit requestedSize ;;; repeat_deposit n' requestedSize
  end.

Definition what (e : exception) : string :=
  match e with
  | runtime_error msg => msg
  | invalid_argument msg => msg
  end.

(** The [try] block up to the call of [cleanup]. *)
Definition main_before_cleanup : Stmt unit :=
  println "" ;;; println "[Action] Deposit Small Package" ;;;
  ticket1 <- call_deposit SMALL ;;
  println ("Received Ticket: " +:+ code ticket1 +:+ " (" +:+ lockerId ticket1
           +:+ ")") ;;;
  repeat_deposit 9 SMALL ;;;
  println "" ;;;
  println "[Action] Deposit Small Package (Small queues empty, expect Medium)" ;;;
  ticket2 <- call_deposit SMALL ;;
  println ("Received Ticket: " +:+ code ticket2 +:+ " (" +:+ lockerId ticket2
           +:+ ") (Should be M-...)") ;;;
  println "" ;;; println "[Action] Pickup Ticket 1" ;;;
  opened <- call_pickup (code ticket1) ;;
  println opened ;;;
  println "" ;;; println "[Action] Simulate 4 days pass..." ;;;
  large <- call_deposit LARGE ;;
  println ("Deposited Large package (to be expired): " +:+ code large) ;;;
  advance (4 * 24 * 60 * 60 * 1000) ;;;
  println "[Action] Running Cleanup...".

Definition main_try (order : list (string * Ticket)) : Stmt unit :=
  main_before_cleanup ;;;
  call_cleanup order ;;;
  println "" ;;; println "Demo Completed.".

(** The world in which [main] enters the [try] block. *)
Definition main_start : World :=
  mkWorld init newMockClock ["=== Amazon Locker System Demo (C++) ==="].

(** What the process leaves behind: its exit status and the two streams. *)
Record Exit := mkExit {
  status : Z;
  stdout : list string;
  stderr : list string
}.

Definition main (order : list (string * Ticket)) : Exit :=
  match main_try order main_start with
  | (inr _, w) => mkExit 0 (cout w) []
  | (inl e, w) => mkExit 1 (cout w) ["Error: " +:+ what e]
  end.

(** The service when [main] calls [cleanup]. *)
Definition demo_service : LockerService :=
  service (main_before_cleanup main_start).2.

(** The instant of the sweep of [main], the lines [main] has written when it
    calls [cleanup], and the lockers then held by active tickets. *)
Definition demo_time : Z := 1000 + 4 * 24 * 60 * 60 * 1000.

Definition demo_prefix : list string :=
  ["=== Amazon Locker System Demo (C++) ===";
   ""; "[Action] Deposit Small Package";
   "Received Ticket: S-0-1000 (S-0)";
   ""; "[Action] Deposit Small Package (Small queues empty, expect Medium)";
   "Received Ticket: M-0-1000 (M-0) (Should be M-...)";
   ""; "[Action] Pickup Ticket 1";
   "Locker S-0 opened. Package retrieved.";
   ""; "[Action] Simulate 4 days pass...";
   "Deposited Large package (to be expired): L-0-1000";
   "[Action] Running Cleanup..."].

Definition demo_outstanding : list string :=
  ["S-1"; "S-2"; "S-3"; "S-4"; "S-5"; "S-6"; "S-7"; "S-8"; "S-9"; "M-0"; "L-0"].

(** ** Sequences of deposits *)

(** Deposits of one size, one per clock reading of [nows], each on the state
    the previous one left; the results in order and the final state. *)
Fixpoint deposit_each (requestedSize : Size) (nows : list Z)
    (svc : LockerService) : list (exception + Ticket) * LockerService :=
  match nows with
  | [] => ([], svc)
  | now :: nows' =>
      let r := deposit requestedSize now svc in
      let rs := deposit_each requestedSize nows' r.2 in
      (r.1 :: rs.1, rs.2)
  end.

(** The free lockers a request of a size can be served from, in the order of
    the cascade: the pool of the size, then the larger pools. *)
Definition candidate_lockers (requestedSize : Size) (svc : LockerService)
  : list string :=
  concat ((fun s => pool s svc) <$> candidates requestedSize).

(** ** Sequences of pickups *)

Definition pickup_all (codes : list string) (svc : LockerService)
  : LockerService :=
  foldl (fun s c => (pickup c s).2) svc codes.

(** A state with one free SMALL locker, and the table of [small_drained]
    visited backwards. *)
Definition last_small : LockerService := drain SMALL 9 1000 init.

Definition small_drained_order : list (string * Ticket) :=
  map_to_list (activeTickets small_drained).

(** * Basic facts *)

Lemma NoDup_inventory : NoDup inventory.
Proof. apply (bool_decide_unpack _). by vm_compute. Qed.

Lemma inventory_shape id :
  id ∈ inventory -> String.length id = 3%nat /\ is_Some (classOf id).
Proof.
  revert id. apply Forall_forall. vm_compute.
  repeat (constructor; [split; [reflexivity | eexists; reflexivity] |]).
  constructor.
Qed.

Lemma append_same_length_inj (a b x y : string) :
  String.length a = String.length b -> a +:+ x = b +:+ y -> a = b.
Proof.
  revert b. induction a as [|c a IH]; intros [|d b] Hlen Heq; simpl in *;
    try done.
  injection Heq as -> Heq. f_equal. apply IH; [lia | done].
Qed.

Lemma returnLocker_class id s svc :
  classOf id = Some s ->
  returnLocker id svc = set_pool s (pool s svc ++ [id]) svc.
Proof.
  unfold classOf, returnLocker. destruct id as [|c id]; [done |].
  repeat case_match; intros [= <-]; done.
Qed.

Lemma returnLocker_tickets id svc :
  activeTickets (returnLocker id svc) = activeTickets svc.
Proof. unfold returnLocker. repeat case_match; done. Qed.

Lemma free_set_pool_cons s id q svc :
  pool s svc = id :: q -> free svc ≡ₚ id :: free (set_pool s q svc).
Proof.
  unfold free, pool. destruct s; simpl; intros ->; simpl; [done | |].
  - by rewrite <- Permutation_middle.
  - rewrite <- Permutation_middle. by rewrite <- Permutation_middle.
Qed.

Lemma free_set_pool_snoc s id svc :
  free (set_pool s (pool s svc ++ [id]) svc) ≡ₚ id :: free svc.
Proof.
  unfold free, pool. destruct s; simpl.
  - rewrite <- !(assoc_L (++)). rewrite (Permutation_app_comm [id]).
    by rewrite !(assoc_L (++)), <- Permutation_cons_append.
  - rewrite <- !(assoc_L (++)). rewrite (Permutation_app_comm [id]).
    by rewrite !(assoc_L (++)), <- Permutation_cons_append.
  - by rewrite !(assoc_L (++)), <- Permutation_cons_append.
Qed.

(** ** [findBestFit] *)


Lemma findBestFit_spec requestedSize svc :
  BestFit requestedSize svc (findBestFit requestedSize svc).
Proof.
  destruct requestedSize; unfold findBestFit.
  - destruct (queues0 svc) as [|id q] eqn:E0.
    2: { by apply (BestFit_pop _ _ [] SMALL [MEDIUM; LARGE]); [| set_solver |]. }
    destruct (queues1 svc) as [|id q] eqn:E1.
    2: { apply (BestFit_pop _ _ [SMALL] MEDIUM [LARGE]); [done | | done].
         intros s' ->%list_elem_of_singleton. done. }
    destruct (queues2 svc) as [|id q] eqn:E2.
    2: { apply (BestFit_pop _ _ [SMALL; MEDIUM] LARGE []); [done | | done].
         intros s' Hs'. destruct s'; set_solver. }
    apply BestFit_none. by intros [].
  - destruct (queues1 svc) as [|id q] eqn:E1.
    2: { by apply (BestFit_pop _ _ [] MEDIUM [LARGE]); [| set_solver |]. }
    destruct (queues2 svc) as [|id q] eqn:E2.
    2: { apply (BestFit_pop _ _ [MEDIUM] LARGE []); [done | | done].
         intros s' ->%list_elem_of_singleton. done. }
    apply BestFit_none. intros [] Hs; try done; set_solver.
  - destruct (queues2 svc) as [|id q] eqn:E2.
    2: { by apply (BestFit_pop _ _ [] LARGE []); [| set_solver |]. }
    apply BestFit_none. intros [] Hs; try done; set_solver.
Qed.

(** ** Consequences of the invariant *)

Lemma occupied_lookup svc k t :
  activeTickets svc !! k = Some t -> lockerId t ∈ occupied svc.
Proof.
  intros Hk. unfold occupied, tickets.
  apply list_elem_of_fmap_2, (list_elem_of_fmap_2' snd _ (k, t)); [| done].
  by apply elem_of_map_to_list.
Qed.

Lemma pool_free s svc id : id ∈ pool s svc -> id ∈ free svc.
Proof. unfold free, pool. destruct s; simpl; set_solver. Qed.

Lemma Inv_NoDup svc : Inv svc -> NoDup (free svc ++ occupied svc).
Proof. intros [HP _ _]. rewrite HP. apply NoDup_inventory. Qed.

Lemma Inv_free_shape svc id :
  Inv svc -> id ∈ free svc ->
  String.length id = 3%nat /\ is_Some (classOf id).
Proof.
  intros [HP _ _] Hid. apply inventory_shape. rewrite <- HP. set_solver.
Qed.

Lemma Inv_occupied_shape svc id :
  Inv svc -> id ∈ occupied svc ->
  String.length id = 3%nat /\ is_Some (classOf id).
Proof.
  intros [HP _ _] Hid. apply inventory_shape. rewrite <- HP. set_solver.
Qed.

(** A locker that is free is the locker of no active ticket, and so the code
    [deposit] builds from it is not a key of the table. *)
Lemma Inv_fresh_code svc id suffix :
  Inv svc -> id ∈ free svc ->
  activeTickets svc !! (id +:+ "-" +:+ suffix) = None.
Proof.
  intros HI Hid.
  destruct (activeTickets svc !! (id +:+ "-" +:+ suffix)) as [t|] eqn:Hk;
    [exfalso | done].
  destruct (inv_codes _ HI _ _ Hk) as [_ Hform].
  pose proof (occupied_lookup _ _ _ Hk) as Hocc.
  assert (id = lockerId t) as ->.
  { apply (append_same_length_inj _ _ _ _) in Hform; [done |].
    destruct (Inv_free_shape _ _ HI Hid) as [-> _].
    by destruct (Inv_occupied_shape _ _ HI Hocc) as [-> _]. }
  pose proof (Inv_NoDup _ HI) as Hnd.
  apply NoDup_app in Hnd as (_ & Hdisj & _). by apply (Hdisj (lockerId t)).
Qed.

Lemma occupied_insert svc k t :
  activeTickets svc !! k = None ->
  occupied (set_activeTickets (<[k := t]> (activeTickets svc)) svc)
  ≡ₚ lockerId t :: occupied svc.
Proof.
  intros Hk. unfold occupied, tickets. simpl.
  by rewrite (map_to_list_insert _ _ _ Hk).
Qed.

Lemma occupied_delete svc k t :
  activeTickets svc !! k = Some t ->
  lockerId t :: occupied (set_activeTickets (delete k (activeTickets svc)) svc)
  ≡ₚ occupied svc.
Proof.
  intros Hk. unfold occupied, tickets. simpl.
  by rewrite <- (map_to_list_delete _ _ _ Hk).
Qed.

(** ** The operations preserve the invariant *)

Lemma pool_set_pool s s' q svc :
  pool s (set_pool s' q svc) = if decide (s = s') then q else pool s svc.
Proof. by destruct s, s'. Qed.

Lemma activeTickets_set_pool s q svc :
  activeTickets (set_pool s q svc) = activeTickets svc.
Proof. by destruct s. Qed.

Lemma occupied_set_pool s q svc : occupied (set_pool s q svc) = occupied svc.
Proof. by destruct s. Qed.

Lemma set_activeTickets_set_pool m s q svc :
  set_activeTickets m (set_pool s q svc) = set_pool s q (set_activeTickets m svc).
Proof. by destruct s. Qed.

(** What [deposit] does, read off [findBestFit]'s outcome. *)
Lemma deposit_unfold requestedSize now svc :
  deposit requestedSize now svc =
  let r := findBestFit requestedSize svc in
  match r.1 with
  | EmptyString =>
      (inl (runtime_error
              ("No locker available for size " +:+ sizeToString requestedSize)),
       r.2)
  | _ =>
      let code := r.1 +:+ "-" +:+ to_string (Z.rem now 10000) in
      let ticket := mkTicket r.1 code now in
      (inr ticket,
       set_activeTickets (<[code := ticket]> (activeTickets r.2)) r.2)
  end.
Proof. unfold deposit. by destruct (findBestFit requestedSize svc). Qed.

Lemma Inv_pop s id q svc :
  Inv svc -> pool s svc = id :: q ->
  id ∈ free svc /\ id <> EmptyString /\ classOf id = Some s.
Proof.
  intros HI Hp.
  assert (id ∈ free svc) as Hfree.
  { apply (pool_free s). rewrite Hp. left. }
  split; [done |]. split.
  - destruct (Inv_free_shape _ _ HI Hfree) as [Hlen _]. by intros ->.
  - pose proof (inv_pools _ HI s) as HF. rewrite Hp in HF.
    by apply Forall_cons in HF as [? _].
Qed.

Lemma deposit_Inv requestedSize now svc :
  Inv svc -> Inv (deposit requestedSize now svc).2.
Proof.
  intros HI. rewrite deposit_unfold.
  destruct (findBestFit_spec requestedSize svc) as [Hempty | skipped s rest id q Hc Hsk Hp];
    simpl; [done |].
  destruct (Inv_pop _ _ _ _ HI Hp) as (Hfree & Hne & Hcl).
  destruct id as [|c id']; [done |]. simpl.
  set (id := String c id') in *.
  set (k := id +:+ "-" +:+ to_string (Z.rem now 10000)).
  assert (activeTickets svc !! k = None) as Hfresh
    by apply (Inv_fresh_code svc id _ HI Hfree).
  set (svc1 := set_pool s q svc).
  assert (activeTickets svc1 !! k = None) as Hfresh1
    by (subst svc1; by rewrite activeTickets_set_pool).
  split.
  - rewrite (occupied_insert svc1 k _ Hfresh1). simpl.
    rewrite <- Permutation_middle.
    change (free (set_activeTickets _ svc1)) with (free svc1).
    subst svc1. rewrite occupied_set_pool.
    rewrite <- (inv_conserve _ HI).
    by rewrite (free_set_pool_cons _ _ _ _ Hp).
  - intros k' t. simpl. subst svc1. rewrite activeTickets_set_pool.
    rewrite lookup_insert. case_decide as Hk.
    + intros [= <-]. subst k'. simpl. done.
    + apply (inv_codes _ HI).
  - intros s'. subst svc1. rewrite set_activeTickets_set_pool, pool_set_pool.
    pose proof (inv_pools _ HI s') as HF.
    case_decide as Hs; [subst s'|]; [| done].
    rewrite Hp in HF. by apply Forall_cons in HF as [_ ?].
Qed.


Lemma release_return_first k id svc :
  set_activeTickets (delete k (activeTickets (returnLocker id svc)))
    (returnLocker id svc)
  = release k id svc.
Proof. unfold release, returnLocker. repeat case_match; done. Qed.

Lemma release_Inv k t svc :
  Inv svc -> activeTickets svc !! k = Some t ->
  Inv (release k (lockerId t) svc).
Proof.
  intros HI Hk. unfold release.
  pose proof (occupied_lookup _ _ _ Hk) as Hocc.
  destruct (Inv_occupied_shape _ _ HI Hocc) as [_ [s Hs]].
  rewrite (returnLocker_class _ _ _ Hs).
  set (svc1 := set_activeTickets _ svc).
  split.
  - rewrite free_set_pool_snoc, occupied_set_pool. simpl.
    rewrite Permutation_middle.
    subst svc1. rewrite (occupied_delete _ _ _ Hk).
    apply (inv_conserve _ HI).
  - intros k' t'. rewrite activeTickets_set_pool. simpl.
    rewrite lookup_delete. case_decide; [done |]. apply (inv_codes _ HI).
  - intros s'. rewrite pool_set_pool.
    pose proof (inv_pools _ HI s') as HF.
    case_decide as Hss; [subst s' |]; [| done].
    apply Forall_app. split; [done |]. by apply Forall_singleton.
Qed.

Lemma pickup_Inv code svc : Inv svc -> Inv (pickup code svc).2.
Proof.
  intros HI. unfold pickup.
  destruct (activeTickets svc !! code) as [t|] eqn:Hk; [| done].
  by apply release_Inv.
Qed.

(** ** The loop of [cleanup] *)

Lemma cleanup_visit_expired now out svc k t :
  expired now t = true ->
  cleanup_visit now (out, svc) (k, t)
  = (out ++ [expiry_line (lockerId t)], release k (lockerId t) svc).
Proof.
  intros He. unfold cleanup_visit. simpl. rewrite He.
  by rewrite release_return_first.
Qed.

Lemma cleanup_visit_fresh now acc k t :
  expired now t = false -> cleanup_visit now acc (k, t) = acc.
Proof. intros He. unfold cleanup_visit. simpl. by rewrite He. Qed.

Lemma activeTickets_release k id svc :
  activeTickets (release k id svc) = delete k (activeTickets svc).
Proof. unfold release. by rewrite returnLocker_tickets. Qed.

Lemma returnLocker_noclass id svc :
  classOf id = None -> returnLocker id svc = svc.
Proof.
  unfold classOf, returnLocker. destruct id as [|c id]; [done |].
  repeat case_match; done.
Qed.

Lemma pool_returnLocker s id svc :
  pool s (returnLocker id svc)
  = pool s svc ++ filter (fun i => classOf i = Some s) [id].
Proof.
  destruct (classOf id) as [s'|] eqn:Hc.
  - rewrite (returnLocker_class _ _ _ Hc), pool_set_pool.
    rewrite filter_cons, filter_nil, Hc.
    destruct (decide (s = s')) as [->|Hne].
    + by rewrite decide_True.
    + rewrite decide_False by congruence. by rewrite app_nil_r.
  - rewrite (returnLocker_noclass _ _ Hc).
    rewrite filter_cons, filter_nil, Hc, decide_False by done.
    by rewrite app_nil_r.
Qed.

Lemma pool_release s k id svc :
  pool s (release k id svc)
  = pool s svc ++ filter (fun i => classOf i = Some s) [id].
Proof. unfold release. by rewrite pool_returnLocker. Qed.


Lemma reclaimed_cons e order now :
  reclaimed (e :: order) now
  = (if expired now e.2 then [lockerId e.2] else []) ++ reclaimed order now.
Proof.
  unfold reclaimed. rewrite filter_cons.
  destruct (expired now e.2); [by rewrite decide_True | by rewrite decide_False].
Qed.

Lemma expired_keys_cons e order now :
  expired_keys (e :: order) now
  = (if expired now e.2 then [e.1] else []) ++ expired_keys order now.
Proof.
  unfold expired_keys. rewrite filter_cons.
  destruct (expired now e.2); [by rewrite decide_True | by rewrite decide_False].
Qed.

Lemma cleanup_loop now order : forall out svc,
  let r := foldl (cleanup_visit now) (out, svc) order in
  r.1 = out ++ (expiry_line <$> reclaimed order now) /\
  (forall s, pool s r.2
             = pool s svc
               ++ filter (fun i => classOf i = Some s) (reclaimed order now)) /\
  (forall k, activeTickets r.2 !! k
             = if decide (k ∈ expired_keys order now) then None
               else activeTickets svc !! k).
Proof.
  induction order as [|[k t] order IH]; intros out svc; cbn [foldl].
  { split; [by rewrite app_nil_r |]. split; [intros; by rewrite app_nil_r |].
    intros k. by rewrite decide_False by apply not_elem_of_nil. }
  rewrite reclaimed_cons, expired_keys_cons. cbn [fst snd].
  destruct (expired now t) eqn:He.
  - rewrite (cleanup_visit_expired _ _ _ _ _ He).
    destruct (IH (out ++ [expiry_line (lockerId t)]) (release k (lockerId t) svc))
      as (Hout & Hpool & Htab).
    split; [| split].
    + rewrite Hout. simpl. by rewrite <- (assoc_L (++)).
    + intros s. rewrite Hpool, pool_release, filter_app.
      by rewrite <- (assoc_L (++)).
    + intros k'. rewrite Htab, activeTickets_release. simpl.
      destruct (decide (k' = k)) as [->|Hne].
      * rewrite (decide_True (P := k ∈ k :: _)) by left.
        case_decide; [done | apply lookup_delete_eq].
      * rewrite lookup_delete_ne by done.
        repeat case_decide; try done; set_solver.
  - rewrite (cleanup_visit_fresh _ _ _ _ He). simpl. apply IH.
Qed.

Lemma cleanup_loop_Inv now order : forall out svc,
  NoDup order.*1 ->
  (forall k t, (k, t) ∈ order -> activeTickets svc !! k = Some t) ->
  Inv svc ->
  Inv (foldl (cleanup_visit now) (out, svc) order).2.
Proof.
  induction order as [|[k t] order IH]; intros out svc Hnd Hin HI; [done |].
  simpl in *. apply NoDup_cons in Hnd as [Hk Hnd].
  destruct (expired now t) eqn:He.
  - rewrite (cleanup_visit_expired _ _ _ _ _ He). apply IH; [done | |].
    + intros k' t' Hin'. rewrite activeTickets_release.
      rewrite lookup_delete_ne; [apply Hin; by right |].
      intros <-. apply Hk. by apply (list_elem_of_fmap_2' fst _ (k, t')).
    + apply release_Inv; [done |]. apply Hin. left.
  - rewrite (cleanup_visit_fresh _ _ _ _ He). apply IH; [done | | done].
    intros k' t' Hin'. apply Hin. by right.
Qed.

Lemma traversal_NoDup order svc : traversal order svc -> NoDup order.*1.
Proof. intros ->. apply NoDup_fst_map_to_list. Qed.

Lemma traversal_lookup order svc k t :
  traversal order svc -> (k, t) ∈ order <-> activeTickets svc !! k = Some t.
Proof. intros ->. apply elem_of_map_to_list. Qed.

Lemma cleanup_Inv order now svc :
  traversal order svc -> Inv svc -> Inv (after (cleanup order now svc)).
Proof.
  intros Ht HI. unfold cleanup. simpl.
  apply cleanup_loop_Inv; [by eapply traversal_NoDup | | done].
  intros k t. by apply traversal_lookup.
Qed.

(** ** Every reachable state satisfies the invariant *)

Lemma init_Inv : Inv init.
Proof.
  split.
  - unfold occupied, tickets, inventory. cbn [activeTickets init].
    rewrite map_to_list_empty. apply reflexive_eq, app_nil_r.
  - intros k t. simpl. by rewrite lookup_empty.
  - intros s. destruct s; vm_compute; repeat constructor.
Qed.

Lemma step_Inv svc svc' : step svc svc' -> Inv svc -> Inv svc'.
Proof.
  intros [svc0 sz now | svc0 c | svc0 order now Ht] HI.
  - by apply deposit_Inv.
  - by apply pickup_Inv.
  - by apply cleanup_Inv.
Qed.

Lemma reachable_Inv svc : reachable svc -> Inv svc.
Proof.
  unfold reachable. revert svc. apply rtc_ind_r; [apply init_Inv |].
  intros svc svc' _ Hstep HI. by eapply step_Inv.
Qed.

Lemma reachable_init : reachable init.
Proof. apply rtc_refl. Qed.

Lemma reachable_step svc svc' : reachable svc -> step svc svc' -> reachable svc'.
Proof. intros Hr Hs. by eapply rtc_r. Qed.

Lemma reachable_deposit requestedSize now svc :
  reachable svc -> reachable (deposit requestedSize now svc).2.
Proof. intros Hr. eapply reachable_step; [done | constructor]. Qed.

Lemma reachable_pickup code svc :
  reachable svc -> reachable (pickup code svc).2.
Proof. intros Hr. eapply reachable_step; [done | constructor]. Qed.

Lemma reachable_cleanup order now svc :
  reachable svc -> traversal order svc ->
  reachable (after (cleanup order now svc)).
Proof. intros Hr Ht. eapply reachable_step; [done | by constructor]. Qed.

Lemma reachable_drain requestedSize n now svc :
  reachable svc -> reachable (drain requestedSize n now svc).
Proof.
  intros Hr. induction n as [|n IH]; [done |].
  unfold drain. simpl. by apply reachable_deposit.
Qed.

(** ** The operations, case by case *)

Lemma findBestFit_none requestedSize svc :
  (forall s, s ∈ candidates requestedSize -> pool s svc = []) ->
  findBestFit requestedSize svc = (EmptyString, svc).
Proof.
  intros He. unfold findBestFit.
  destruct requestedSize;
    try (assert (queues0 svc = []) as -> by (apply (He SMALL); set_solver));
    try (assert (queues1 svc = []) as -> by (apply (He MEDIUM); set_solver));
    try (assert (queues2 svc = []) as -> by (apply (He LARGE); set_solver));
    done.
Qed.

Lemma findBestFit_pop requestedSize svc skipped s rest id q :
  candidates requestedSize = skipped ++ s :: rest ->
  (forall s', s' ∈ skipped -> pool s' svc = []) ->
  pool s svc = id :: q ->
  findBestFit requestedSize svc = (id, set_pool s q svc).
Proof.
  intros Hc Hsk Hp. unfold findBestFit.
  destruct requestedSize, skipped as [|a [|b [|c sk]]]; simplify_eq/=;
    try (assert (queues0 svc = []) as -> by (apply (Hsk SMALL); set_solver));
    try (assert (queues1 svc = []) as -> by (apply (Hsk MEDIUM); set_solver));
    unfold pool in Hp; simpl in Hp; rewrite ?Hp; try done;
    by destruct sk.
Qed.

Lemma deposit_exhausted requestedSize now svc :
  (forall s, s ∈ candidates requestedSize -> pool s svc = []) ->
  deposit requestedSize now svc = (inl (NoCapacity requestedSize), svc).
Proof. intros He. unfold deposit. by rewrite findBestFit_none. Qed.

Lemma deposit_pop requestedSize now svc skipped s rest id q :
  candidates requestedSize = skipped ++ s :: rest ->
  (forall s', s' ∈ skipped -> pool s' svc = []) ->
  pool s svc = id :: q ->
  id <> EmptyString ->
  deposit requestedSize now svc
  = (inr (mint id now),
     set_activeTickets (<[code (mint id now) := mint id now]> (activeTickets svc))
       (set_pool s q svc)).
Proof.
  intros Hc Hsk Hp Hne. unfold deposit.
  rewrite (findBestFit_pop _ _ _ _ _ _ _ Hc Hsk Hp).
  destruct id as [|c id']; [done |].
  by rewrite activeTickets_set_pool.
Qed.

Lemma pickup_absent code svc :
  activeTickets svc !! code = None ->
  pickup code svc = (inl (InvalidCode code), svc).
Proof. intros Hk. unfold pickup. by rewrite Hk. Qed.

Lemma pickup_found code t svc :
  activeTickets svc !! code = Some t ->
  pickup code svc
  = (inr (confirmation (lockerId t)), release code (lockerId t) svc).
Proof. intros Hk. unfold pickup. by rewrite Hk. Qed.

Lemma cleanup_nothing_expired now order : forall acc,
  (forall e, e ∈ order -> expired now e.2 = false) ->
  foldl (cleanup_visit now) acc order = acc.
Proof.
  induction order as [|[k t] order IH]; intros acc Hfresh; [done |].
  cbn [foldl]. rewrite cleanup_visit_fresh.
  - apply IH. intros e He. apply Hfresh. by right.
  - apply (Hfresh (k, t)). left.
Qed.

Lemma expired_spec now t :
  - 2 ^ 63 <= age now t < 2 ^ 63 ->
  expired now t = true <-> threeDaysInMillis < age now t.
Proof.
  intros Hr. unfold expired, sub_ll, wrap_ll. fold (age now t).
  replace ((age now t + 2 ^ 63) `mod` 2 ^ 64) with (age now t + 2 ^ 63)
    by (symmetry; apply Z.mod_small; lia).
  rewrite Z.ltb_lt. lia.
Qed.

Lemma threeDaysInMillis_value : threeDaysInMillis = 259200000.
Proof. reflexivity. Qed.

(** In a state that satisfies the invariant [deposit] either finds every
    candidate pool empty, or pops the front of the first non-empty one and
    files the ticket under a key that was not in the table. *)
Lemma deposit_cases requestedSize now svc :
  Inv svc ->
  ((forall s, s ∈ candidates requestedSize -> pool s svc = []) /\
   deposit requestedSize now svc = (inl (NoCapacity requestedSize), svc))
  \/
  (exists skipped s rest id q,
     candidates requestedSize = skipped ++ s :: rest /\
     (forall s', s' ∈ skipped -> pool s' svc = []) /\
     pool s svc = id :: q /\
     classOf id = Some s /\
     activeTickets svc !! code (mint id now) = None /\
     deposit requestedSize now svc
     = (inr (mint id now),
        set_activeTickets
          (<[code (mint id now) := mint id now]> (activeTickets svc))
          (set_pool s q svc))).
Proof.
  intros HI.
  destruct (findBestFit_spec requestedSize svc)
    as [Hempty | skipped s rest id q Hc Hsk Hp].
  - left. split; [done | by apply deposit_exhausted].
  - right. exists skipped, s, rest, id, q.
    destruct (Inv_pop _ _ _ _ HI Hp) as (Hfree & Hne & Hcl).
    repeat split; try done.
    + by apply Inv_fresh_code.
    + by eapply deposit_pop.
Qed.

(** * The properties of the engine *)

(** C1. Conservation.  In every state reachable from the seeded inventory by
    deposits, pickups and sweeps, whatever their outcomes, the lockers free in
    the three pools together with the lockers of the active tickets are, as a
    multiset, the inventory seeded at construction (thirty lockers); the same
    holds after any further operation. *)
Theorem conservation svc :
  reachable svc ->
  conserved svc /\
  (length (free svc) + length (tickets svc) = 30)%nat /\
  (forall svc', step svc svc' -> conserved svc').
Proof.
  intros Hr. pose proof (reachable_Inv _ Hr) as HI.
  split; [apply (inv_conserve _ HI) |]. split.
  - pose proof (Permutation_length (inv_conserve _ HI)) as Hlen.
    rewrite length_app in Hlen. unfold occupied in Hlen.
    rewrite length_fmap in Hlen. rewrite Hlen. reflexivity.
  - intros svc' Hs. apply inv_conserve, reachable_Inv.
    by eapply reachable_step.
Qed.

Lemma conservation_witness :
  reachable one_small /\
  conserved one_small /\
  (length (free one_small) + length (tickets one_small) = 30)%nat /\
  (forall svc', step one_small svc' -> conserved svc').
Proof.
  assert (reachable one_small) as Hr
    by (apply reachable_deposit, reachable_init).
  split; [exact Hr | exact (conservation one_small Hr)].
Defined.

(** C10. Code uniqueness.  In every reachable state the codes of the active
    tickets are pairwise distinct and so are their lockers; every ticket is
    filed under its own code, and that code is the locker identifier followed
    by a dash and the creation instant modulo 10000; a successful deposit
    files its ticket under a key that was absent, so no active ticket is
    overwritten. *)
Theorem active_codes_distinct svc :
  reachable svc ->
  NoDup (code <$> tickets svc) /\
  NoDup (lockerId <$> tickets svc) /\
  (forall k t, activeTickets svc !! k = Some t ->
     code t = k /\
     code t = lockerId t +:+ "-" +:+ to_string (Z.rem (creationTime t) 10000)) /\
  (forall requestedSize now t svc',
     deposit requestedSize now svc = (inr t, svc') ->
     activeTickets svc !! code t = None /\
     activeTickets svc' = <[code t := t]> (activeTickets svc)).
Proof.
  intros Hr. pose proof (reachable_Inv _ Hr) as HI.
  split; [| split; [| split]].
  - unfold tickets. rewrite <- list_fmap_compose.
    replace ((code ∘ snd) <$> map_to_list (activeTickets svc))
      with ((map_to_list (activeTickets svc)).*1);
      [apply NoDup_fst_map_to_list |].
    apply Forall_fmap_ext, Forall_forall. intros [k t] Hin. simpl.
    apply elem_of_map_to_list in Hin.
    by destruct (inv_codes _ HI _ _ Hin) as [-> _].
  - pose proof (Inv_NoDup _ HI) as Hnd.
    by apply NoDup_app in Hnd as (_ & _ & ?).
  - intros k t Hk. destruct (inv_codes _ HI _ _ Hk) as [Hc Hform].
    split; [done |]. by rewrite Hc.
  - intros requestedSize now t svc' Hd.
    destruct (deposit_cases requestedSize now svc HI)
      as [[_ Hfail] | (skipped & s & rest & id & q & _ & _ & _ & _ & Hfresh & Hok)].
    + rewrite Hfail in Hd. discriminate.
    + rewrite Hok in Hd. injection Hd as <- <-. split; [done |].
      by rewrite set_activeTickets_set_pool, activeTickets_set_pool.
Qed.

Lemma active_codes_distinct_witness :
  reachable small_drained /\
  NoDup (code <$> tickets small_drained) /\
  activeTickets small_drained !! code (mint "M-0" 1000) = None.
Proof.
  assert (reachable small_drained) as Hr
    by (apply reachable_drain, reachable_init).
  destruct (active_codes_distinct small_drained Hr) as (Hc & _ & _ & Hd).
  split; [exact Hr |]. split; [exact Hc |].
  exact (proj1 (Hd SMALL 1000 (mint "M-0" 1000)
                  (deposit SMALL 1000 small_drained).2 eq_refl)).
Defined.

(** C2. Best fit upward.  In a reachable state whose SMALL pool is empty and
    whose MEDIUM pool is not, a SMALL deposit succeeds with the locker at the
    front of the MEDIUM pool, a MEDIUM locker; that pool loses its front and
    the LARGE pool is left as it was. *)
Theorem best_fit_upward now svc :
  reachable svc ->
  pool SMALL svc = [] ->
  pool MEDIUM svc <> [] ->
  exists id q,
    pool MEDIUM svc = id :: q /\
    classOf id = Some MEDIUM /\
    deposit SMALL now svc
    = (inr (mint id now),
       set_activeTickets
         (<[code (mint id now) := mint id now]> (activeTickets svc))
         (set_pool MEDIUM q svc)) /\
    pool SMALL (deposit SMALL now svc).2 = [] /\
    pool MEDIUM (deposit SMALL now svc).2 = q /\
    pool LARGE (deposit SMALL now svc).2 = pool LARGE svc.
Proof.
  intros Hr HS HM. pose proof (reachable_Inv _ Hr) as HI.
  destruct (pool MEDIUM svc) as [|id q] eqn:Hp; [done |].
  exists id, q. destruct (Inv_pop _ _ _ _ HI Hp) as (_ & Hne & Hcl).
  assert (deposit SMALL now svc
          = (inr (mint id now),
             set_activeTickets
               (<[code (mint id now) := mint id now]> (activeTickets svc))
               (set_pool MEDIUM q svc))) as Hd.
  { apply (deposit_pop SMALL now svc [SMALL] MEDIUM [LARGE]); try done.
    by intros s' ->%list_elem_of_singleton. }
  rewrite Hd. repeat split; try done.
Qed.

Lemma best_fit_upward_witness :
  reachable small_drained /\
  pool SMALL small_drained = [] /\
  pool MEDIUM small_drained <> [] /\
  exists id q,
    pool MEDIUM small_drained = id :: q /\
    classOf id = Some MEDIUM /\
    deposit SMALL 2000 small_drained
    = (inr (mint id 2000),
       set_activeTickets
         (<[code (mint id 2000) := mint id 2000]> (activeTickets small_drained))
         (set_pool MEDIUM q small_drained)) /\
    pool SMALL (deposit SMALL 2000 small_drained).2 = [] /\
    pool MEDIUM (deposit SMALL 2000 small_drained).2 = q /\
    pool LARGE (deposit SMALL 2000 small_drained).2 = pool LARGE small_drained.
Proof.
  assert (reachable small_drained) as Hr
    by (apply reachable_drain, reachable_init).
  assert (pool SMALL small_drained = []) as HS by reflexivity.
  assert (pool MEDIUM small_drained <> []) as HM by (vm_compute; discriminate).
  split; [exact Hr |]. split; [exact HS |]. split; [exact HM |].
  exact (best_fit_upward 2000 small_drained Hr HS HM).
Defined.

(** C3. No capacity, no downward fallback.  When the pool of the requested
    size and every larger pool are empty, deposit throws the no-capacity
    error naming the requested size and the service is unchanged.  A LARGE
    deposit fails so as soon as the LARGE pool is empty, whatever the SMALL
    and MEDIUM pools hold.  Distinct sizes give distinct errors. *)
Theorem no_capacity_no_fallback :
  (forall requestedSize now svc,
     (forall s, s ∈ candidates requestedSize -> pool s svc = []) ->
     deposit requestedSize now svc = (inl (NoCapacity requestedSize), svc)) /\
  (forall now svc,
     pool LARGE svc = [] ->
     deposit LARGE now svc = (inl (NoCapacity LARGE), svc)) /\
  (forall s s', NoCapacity s = NoCapacity s' -> s = s').
Proof.
  split; [| split].
  - intros requestedSize now svc He. by apply deposit_exhausted.
  - intros now svc HL. apply deposit_exhausted.
    by intros s ->%list_elem_of_singleton.
  - by intros [] [] [=].
Qed.

Lemma no_capacity_no_fallback_witness :
  pool SMALL large_drained <> [] /\
  pool MEDIUM large_drained <> [] /\
  pool LARGE large_drained = [] /\
  deposit LARGE 2000 large_drained = (inl (NoCapacity LARGE), large_drained).
Proof.
  assert (pool LARGE large_drained = []) as HL by reflexivity.
  split; [vm_compute; discriminate |]. split; [vm_compute; discriminate |].
  split; [exact HL |].
  exact (proj1 (proj2 no_capacity_no_fallback) 2000 large_drained HL).
Defined.

(** ** The table after a sweep *)

Lemma expired_keys_spec order now svc k :
  traversal order svc ->
  k ∈ expired_keys order now
  <-> exists t, activeTickets svc !! k = Some t /\ expired now t = true.
Proof.
  intros Ht. unfold expired_keys. rewrite list_elem_of_fmap. split.
  - intros ([k' t] & -> & Hin). apply list_elem_of_filter in Hin as [He Hin].
    exists t. split; [| done]. by apply (traversal_lookup order).
  - intros (t & Hk & He). exists (k, t). split; [done |].
    apply list_elem_of_filter. split; [done |].
    by apply (traversal_lookup order svc).
Qed.

Lemma cleanup_table order now svc k :
  traversal order svc ->
  activeTickets (after (cleanup order now svc)) !! k
  = match activeTickets svc !! k with
    | Some t => if expired now t then None else Some t
    | None => None
    end.
Proof.
  intros Ht. unfold cleanup. cbn [after].
  destruct (cleanup_loop now order [] svc) as (_ & _ & Htab).
  rewrite Htab. case_decide as Hk.
  - apply (expired_keys_spec _ _ svc) in Hk as (t & -> & ->); done.
  - destruct (activeTickets svc !! k) as [t|] eqn:Hl; [| done].
    destruct (expired now t) eqn:He; [| done].
    exfalso. apply Hk, (expired_keys_spec _ _ svc); eauto.
Qed.

Lemma cleanup_table_filter order now svc :
  traversal order svc ->
  activeTickets (after (cleanup order now svc))
  = filter (fun e : string * Ticket => expired now e.2 = false)
      (activeTickets svc).
Proof.
  intros Ht. apply map_eq. intros k. rewrite (cleanup_table _ _ _ _ Ht).
  destruct (activeTickets svc !! k) as [t|] eqn:Hl.
  - destruct (expired now t) eqn:He.
    + symmetry. apply map_lookup_filter_None. right.
      intros t' Hl'. simpl. congruence.
    + symmetry. by apply map_lookup_filter_Some.
  - symmetry. apply map_lookup_filter_None. by left.
Qed.

(** C5. Invalid code.  A pickup with a code that is not a key of the table
    throws the invalid-code error for that code and leaves the service
    unchanged; no confirmation is produced.  This covers a code that was
    never issued (nothing is issued in the initial state), a code already
    redeemed, and a code whose ticket a sweep has reclaimed. *)
Theorem invalid_code_rejected :
  (forall c svc,
     activeTickets svc !! c = None ->
     pickup c svc = (inl (InvalidCode c), svc)) /\
  (forall c, pickup c init = (inl (InvalidCode c), init)) /\
  (forall c svc,
     let svc' := (pickup c svc).2 in
     pickup c svc' = (inl (InvalidCode c), svc')) /\
  (forall c t order now svc,
     traversal order svc ->
     activeTickets svc !! c = Some t ->
     expired now t = true ->
     let svc' := after (cleanup order now svc) in
     pickup c svc' = (inl (InvalidCode c), svc')).
Proof.
  split; [| split; [| split]].
  - intros c svc Hk. by apply pickup_absent.
  - intros c. by apply pickup_absent.
  - intros c svc svc'. apply pickup_absent. subst svc'. unfold pickup.
    destruct (activeTickets svc !! c) as [t|] eqn:Hk; [| done].
    cbn [snd]. rewrite returnLocker_tickets. apply lookup_delete_eq.
  - intros c t order now svc Ht Hk He svc'. apply pickup_absent.
    subst svc'. by rewrite (cleanup_table _ _ _ _ Ht), Hk, He.
Qed.

Lemma invalid_code_rejected_witness :
  activeTickets one_small !! "S-1-1000" = None /\
  pickup "S-1-1000" one_small = (inl (InvalidCode "S-1-1000"), one_small).
Proof.
  assert (activeTickets one_small !! "S-1-1000" = None) as Hk
    by (vm_compute; reflexivity).
  split; [exact Hk |].
  exact (proj1 invalid_code_rejected "S-1-1000" one_small Hk).
Defined.

(** C4. Round trip.  In a reachable state with a free locker in some
    candidate pool of the requested size, a deposit followed at once by a
    pickup with the code of the returned ticket succeeds; the locker, taken
    from the front of the pool of its own size class, is back at the tail of
    that pool, the table of active tickets is the one before the deposit and
    every pool holds the same lockers as before. *)
Theorem round_trip requestedSize now svc :
  reachable svc ->
  (exists s, s ∈ candidates requestedSize /\ pool s svc <> []) ->
  exists t svc1 s q,
    deposit requestedSize now svc = (inr t, svc1) /\
    classOf (lockerId t) = Some s /\
    pool s svc = lockerId t :: q /\
    pickup (code t) svc1
    = (inr (confirmation (lockerId t)), set_pool s (q ++ [lockerId t]) svc) /\
    activeTickets (pickup (code t) svc1).2 = activeTickets svc /\
    (forall s', pool s' (pickup (code t) svc1).2 ≡ₚ pool s' svc).
Proof.
  intros Hr (s0 & Hs0 & Hne0). pose proof (reachable_Inv _ Hr) as HI.
  destruct (deposit_cases requestedSize now svc HI)
    as [[Hempty _] | (skipped & s & rest & id & q & _ & _ & Hp & Hcl & Hfresh & Hok)].
  { by specialize (Hempty s0 Hs0). }
  eexists (mint id now), _, s, q. split; [exact Hok |].
  split; [done |]. split; [done |].
  set (svc1 := set_activeTickets _ _).
  assert (pickup (code (mint id now)) svc1
          = (inr (confirmation id), set_pool s (q ++ [id]) svc)) as Hpick.
  { rewrite (pickup_found _ (mint id now)) by apply lookup_insert_eq.
    f_equal. unfold release. change (lockerId (mint id now)) with id.
    rewrite (returnLocker_class _ _ _ Hcl). subst svc1.
    cbn [activeTickets set_activeTickets].
    rewrite (delete_insert_id _ _ _ Hfresh).
    destruct svc, s; unfold pool in Hp; simpl in *; by subst. }
  split; [exact Hpick |]. rewrite Hpick. cbn [snd].
  change (lockerId (mint id now)) with id.
  split; [by rewrite activeTickets_set_pool |].
  intros s'. rewrite pool_set_pool. case_decide as Hs; [subst s' | done].
  by rewrite Hp, <- Permutation_cons_append.
Qed.

Lemma round_trip_witness :
  reachable small_drained /\
  (exists s, s ∈ candidates SMALL /\ pool s small_drained <> []) /\
  exists t svc1 s q,
    deposit SMALL 2000 small_drained = (inr t, svc1) /\
    classOf (lockerId t) = Some s /\
    pool s small_drained = lockerId t :: q /\
    pickup (code t) svc1
    = (inr (confirmation (lockerId t)),
       set_pool s (q ++ [lockerId t]) small_drained) /\
    activeTickets (pickup (code t) svc1).2 = activeTickets small_drained /\
    (forall s', pool s' (pickup (code t) svc1).2 ≡ₚ pool s' small_drained).
Proof.
  assert (reachable small_drained) as Hr
    by (apply reachable_drain, reachable_init).
  assert (exists s, s ∈ candidates SMALL /\ pool s small_drained <> []) as Hfree.
  { exists MEDIUM. split; [vm_compute; right; left | vm_compute; discriminate]. }
  split; [exact Hr |]. split; [exact Hfree |].
  exact (round_trip SMALL 2000 small_drained Hr Hfree).
Defined.

(** ** Expiry *)


Lemma reclaimed_lookup order now svc id :
  traversal order svc ->
  id ∈ reclaimed order now
  <-> exists k t, activeTickets svc !! k = Some t /\ lockerId t = id /\
                  expired now t = true.
Proof.
  intros Ht. unfold reclaimed. rewrite list_elem_of_fmap. split.
  - intros ([k t] & -> & Hin). apply list_elem_of_filter in Hin as [He Hin].
    exists k, t. split; [by apply (traversal_lookup order) | done].
  - intros (k & t & Hk & <- & He). exists (k, t). split; [done |].
    apply list_elem_of_filter. split; [done |].
    by apply (traversal_lookup order svc).
Qed.

Lemma cleanup_pools order now svc s :
  pool s (after (cleanup order now svc))
  = pool s svc ++ filter (fun id => classOf id = Some s) (reclaimed order now).
Proof.
  unfold cleanup. cbn [after].
  destruct (cleanup_loop now order [] svc) as (_ & Hpool & _). apply Hpool.
Qed.

Lemma cleanup_printed order now svc :
  printed (cleanup order now svc) = expiry_line <$> reclaimed order now.
Proof.
  unfold cleanup. cbn [printed].
  destruct (cleanup_loop now order [] svc) as (Hout & _ & _). apply Hout.
Qed.

Lemma reclaimed_nothing_expired order now :
  Forall (fun e : string * Ticket => expired now e.2 = false) order ->
  reclaimed order now = [].
Proof.
  induction 1 as [|e order He _ IH]; [done |].
  by rewrite reclaimed_cons, He, IH.
Qed.

Lemma reclaimed_classes order now svc :
  Inv svc -> traversal order svc ->
  Forall (fun id => is_Some (classOf id)) (reclaimed order now).
Proof.
  intros HI Ht. apply Forall_forall. intros id Hid.
  apply (reclaimed_lookup _ _ svc) in Hid as (k & t & Hk & <- & _); [| done].
  eapply Inv_occupied_shape; [done |]. by eapply occupied_lookup.
Qed.







(** C7, as the code has it.  A second sweep at the same instant, run on the
    state the first one left, changes nothing: it reclaims no locker, prints
    no line and, like every sweep, returns no value to its caller, whatever
    order the two runs visit the table in. *)
Theorem sweep_idempotent order order' now svc :
  traversal order svc ->
  traversal order' (after (cleanup order now svc)) ->
  let svc' := after (cleanup order now svc) in
  cleanup order' now svc' = mkRun tt [] svc' /\
  after (cleanup order' now svc') = svc' /\
  reclaimed order' now = [] /\
  printed (cleanup order' now svc') = [] /\
  returned (cleanup order' now svc') = tt.
Proof.
  intros Ht Ht' svc'.
  assert (forall e, e ∈ order' -> expired now e.2 = false) as Hfresh.
  { intros [k t] Hin. apply (traversal_lookup _ _ _ _ Ht') in Hin.
    rewrite (cleanup_table _ _ _ _ Ht) in Hin. cbn [snd].
    destruct (activeTickets svc !! k) as [t0|]; [| done].
    destruct (expired now t0) eqn:He; [done |]. by injection Hin as <-. }
  assert (reclaimed order' now = []) as Hnone.
  { by apply reclaimed_nothing_expired, Forall_forall. }
  assert (cleanup order' now svc' = mkRun tt [] svc') as Hrun.
  { unfold cleanup. by rewrite cleanup_nothing_expired. }
  split; [done |]. rewrite Hrun. by cbn [after printed returned].
Qed.

Lemma sweep_idempotent_witness :
  traversal one_large_order one_large /\
  traversal swept_large_order swept_large /\
  reclaimed one_large_order four_days_later = ["L-0"] /\
  cleanup swept_large_order four_days_later swept_large
  = mkRun tt [] swept_large /\
  after (cleanup swept_large_order four_days_later swept_large) = swept_large /\
  reclaimed swept_large_order four_days_later = [] /\
  printed (cleanup swept_large_order four_days_later swept_large) = [] /\
  returned (cleanup swept_large_order four_days_later swept_large) = tt.
Proof.
  assert (traversal one_large_order one_large) as Ht
    by (unfold traversal; reflexivity).
  assert (traversal swept_large_order swept_large) as Ht'
    by (unfold traversal; reflexivity).
  split; [exact Ht |]. split; [exact Ht' |].
  split; [vm_compute; reflexivity |].
  exact (sweep_idempotent one_large_order swept_large_order four_days_later
           one_large Ht Ht').
Defined.

(** C7, as stated, fails.  The second of two consecutive sweeps reclaims
    nothing, the first reclaimed locker L-0, and both hand the same value
    back to the caller: if the value returned by a sweep is read as its list
    of reclaimed lockers, the second run does not return the empty list. *)
Lemma second_sweep_returns_no_list :
  reclaimed one_large_order four_days_later = ["L-0"] /\
  reclaimed swept_large_order four_days_later = [] /\
  returned (cleanup swept_large_order four_days_later swept_large)
  = returned (cleanup one_large_order four_days_later one_large) /\
  ~ (exists view : unit -> list string,
       view (returned (cleanup one_large_order four_days_later one_large))
       = reclaimed one_large_order four_days_later /\
       view (returned (cleanup swept_large_order four_days_later swept_large))
       = []).
Proof.
  assert (reclaimed one_large_order four_days_later = ["L-0"]) as Hone
    by (vm_compute; reflexivity).
  split; [exact Hone |]. split; [vm_compute; reflexivity |].
  split; [reflexivity |].
  intros (view & H1 & H2). rewrite Hone in H1.
  cbn [returned cleanup] in H1, H2. rewrite H2 in H1. discriminate H1.
Qed.

(** ** What a sweep hands back *)

(** C9, as the code has it.  [cleanup] returns nothing to its caller; for
    each locker it reclaims it prints one line naming the locker, in the
    order of the traversal, and it prints nothing when no ticket is past the
    retention threshold. *)
Theorem cleanup_reports order now svc :
  returned (cleanup order now svc) = tt /\
  printed (cleanup order now svc) = expiry_line <$> reclaimed order now /\
  (Forall (fun e : string * Ticket => expired now e.2 = false) order ->
   reclaimed order now = [] /\ printed (cleanup order now svc) = []).
Proof.
  split; [done |]. split; [apply cleanup_printed |].
  intros Hfresh. rewrite cleanup_printed.
  by rewrite (reclaimed_nothing_expired _ _ Hfresh).
Qed.

Lemma cleanup_reports_witness :
  Forall (fun e : string * Ticket => expired 2000 e.2 = false) one_small_order /\
  reclaimed one_small_order 2000 = [] /\
  printed (cleanup one_small_order 2000 one_small) = [].
Proof.
  assert (Forall (fun e : string * Ticket => expired 2000 e.2 = false)
            one_small_order) as Hfresh.
  { unfold one_small_order.
    let l := eval vm_compute in (map_to_list (activeTickets one_small)) in
    change (map_to_list (activeTickets one_small)) with l.
    constructor; [vm_compute; reflexivity | constructor]. }
  split; [exact Hfresh |].
  exact (proj2 (proj2 (cleanup_reports one_small_order 2000 one_small)) Hfresh).
Defined.

(** C9, as stated, fails: a run that reclaims locker L-0 and a run that
    reclaims nothing hand the same value back, so the reclaimed lockers
    cannot be read off what [cleanup] returns. *)
Lemma cleanup_returns_no_list :
  reclaimed one_large_order four_days_later = ["L-0"] /\
  reclaimed [] four_days_later = [] /\
  returned (cleanup one_large_order four_days_later one_large)
  = returned (cleanup [] four_days_later init) /\
  ~ returns_reclaimed_list.
Proof.
  assert (reclaimed one_large_order four_days_later = ["L-0"]) as Hone
    by (vm_compute; reflexivity).
  split; [exact Hone |]. split; [reflexivity |]. split; [reflexivity |].
  intros [view Hview].
  assert (traversal one_large_order one_large) as Ht
    by (unfold traversal; reflexivity).
  assert (traversal [] init) as Ht0.
  { unfold traversal. cbn [activeTickets init]. by rewrite map_to_list_empty. }
  pose proof (Hview one_large_order four_days_later one_large Ht) as H1.
  pose proof (Hview [] four_days_later init Ht0) as H0.
  rewrite Hone in H1. cbn [returned cleanup] in H0, H1.
  rewrite H0 in H1. discriminate H1.
Qed.

(** ** FIFO discipline *)

Lemma two_small_scenario now1 now2 now3 now4 :
  exists svc1 svc2 svc3 svc4,
    deposit SMALL now1 two_small = (inr (mint "S-0" now1), svc1) /\
    deposit SMALL now2 svc1 = (inr (mint "S-1" now2), svc2) /\
    deposit SMALL now3 svc2 = (inl (NoCapacity SMALL), svc2) /\
    pickup (code (mint "S-0" now1)) svc2 = (inr (confirmation "S-0"), svc3) /\
    pool SMALL svc3 = ["S-0"] /\
    deposit SMALL now4 svc3 = (inr (mint "S-0" now4), svc4).
Proof.
  do 4 eexists. split; [| split; [| split; [| split; [| split]]]].
  - by apply (deposit_pop SMALL now1 two_small [] SMALL [MEDIUM; LARGE] "S-0" ["S-1"]);
      [| intros s' ?%elem_of_nil | |].
  - by apply (deposit_pop SMALL now2 _ [] SMALL [MEDIUM; LARGE] "S-1" []);
      [| intros s' ?%elem_of_nil | |].
  - apply deposit_exhausted. by intros [] _.
  - apply (pickup_found _ (mint "S-0" now1)).
    cbn [activeTickets set_activeTickets set_pool set_queues0].
    rewrite lookup_insert_ne by by intros [=].
    apply lookup_insert_eq.
  - reflexivity.
  - by apply (deposit_pop SMALL now4 _ [] SMALL [MEDIUM; LARGE] "S-0" []);
      [| intros s' ?%elem_of_nil | |].
Qed.

(** C8. FIFO discipline.  In a reachable state a successful deposit takes the
    front of the first non-empty candidate pool; a pickup appends the locker
    of the ticket at the tail of the pool of its size class; a sweep appends
    the lockers it reclaims, in the order it meets them, at the tails of the
    pools of their size classes.  With two SMALL lockers S-0 and S-1: two
    deposits take S-0 then S-1, a third finds no capacity, the pickup of the
    first ticket puts S-0 back, and the next deposit receives S-0 again. *)
Theorem fifo_discipline :
  (forall svc requestedSize now skipped s rest id q,
     reachable svc ->
     candidates requestedSize = skipped ++ s :: rest ->
     (forall s', s' ∈ skipped -> pool s' svc = []) ->
     pool s svc = id :: q ->
     deposit requestedSize now svc
     = (inr (mint id now),
        set_activeTickets
          (<[code (mint id now) := mint id now]> (activeTickets svc))
          (set_pool s q svc))) /\
  (forall svc c t,
     reachable svc ->
     activeTickets svc !! c = Some t ->
     exists s,
       classOf (lockerId t) = Some s /\
       (pickup c svc).2
       = set_pool s (pool s svc ++ [lockerId t])
           (set_activeTickets (delete c (activeTickets svc)) svc)) /\
  (forall svc order now,
     reachable svc ->
     traversal order svc ->
     Forall (fun id => is_Some (classOf id)) (reclaimed order now) /\
     forall s, pool s (after (cleanup order now svc))
               = pool s svc
                 ++ filter (fun id => classOf id = Some s) (reclaimed order now)) /\
  (forall now1 now2 now3 now4,
     exists svc1 svc2 svc3 svc4,
       deposit SMALL now1 two_small = (inr (mint "S-0" now1), svc1) /\
       deposit SMALL now2 svc1 = (inr (mint "S-1" now2), svc2) /\
       deposit SMALL now3 svc2 = (inl (NoCapacity SMALL), svc2) /\
       pickup (code (mint "S-0" now1)) svc2 = (inr (confirmation "S-0"), svc3) /\
       pool SMALL svc3 = ["S-0"] /\
       deposit SMALL now4 svc3 = (inr (mint "S-0" now4), svc4)).
Proof.
  split; [| split; [| split]].
  - intros svc requestedSize now skipped s rest id q Hr Hc Hsk Hp.
    pose proof (reachable_Inv _ Hr) as HI.
    destruct (Inv_pop _ _ _ _ HI Hp) as (_ & Hne & _).
    by eapply deposit_pop.
  - intros svc c t Hr Hk. pose proof (reachable_Inv _ Hr) as HI.
    pose proof (occupied_lookup _ _ _ Hk) as Hocc.
    destruct (Inv_occupied_shape _ _ HI Hocc) as [_ [s Hs]].
    exists s. split; [done |].
    rewrite (pickup_found _ _ _ Hk). cbn [snd]. unfold release.
    by rewrite (returnLocker_class _ _ _ Hs).
  - intros svc order now Hr Ht. pose proof (reachable_Inv _ Hr) as HI.
    split; [by apply (reclaimed_classes _ _ svc) |].
    intros s. apply cleanup_pools.
  - apply two_small_scenario.
Qed.

Lemma fifo_discipline_witness :
  reachable small_drained /\
  candidates SMALL = [SMALL] ++ MEDIUM :: [LARGE] /\
  (forall s', s' ∈ [SMALL] -> pool s' small_drained = []) /\
  pool MEDIUM small_drained
  = "M-0" :: ["M-1"; "M-2"; "M-3"; "M-4"; "M-5"; "M-6"; "M-7"; "M-8"; "M-9"] /\
  (deposit SMALL 2000 small_drained).1 = inr (mint "M-0" 2000).
Proof.
  assert (reachable small_drained) as Hr
    by (apply reachable_drain, reachable_init).
  assert (candidates SMALL = [SMALL] ++ MEDIUM :: [LARGE]) as Hc by reflexivity.
  assert (forall s', s' ∈ [SMALL] -> pool s' small_drained = []) as Hsk.
  { intros s' Hs'. apply list_elem_of_singleton in Hs'. subst s'. reflexivity. }
  assert (pool MEDIUM small_drained
          = "M-0" :: ["M-1"; "M-2"; "M-3"; "M-4"; "M-5"; "M-6"; "M-7"; "M-8";
                      "M-9"]) as Hp by reflexivity.
  split; [exact Hr |]. split; [exact Hc |]. split; [exact Hsk |].
  split; [exact Hp |].
  exact (f_equal fst
           (proj1 fifo_discipline small_drained SMALL 2000 [SMALL] MEDIUM
              [LARGE] "M-0" _ Hr Hc Hsk Hp)).
Defined.

(** * Further properties of the engine *)

(** ** Outcomes of [deposit] *)

(** A deposit in a reachable state fails exactly when every candidate pool is
    empty; a failure is always the no-capacity error for the requested size
    and leaves the service as it was; a deposit succeeds exactly when some
    candidate pool holds a locker. *)
Theorem deposit_outcome requestedSize now svc :
  reachable svc ->
  ((forall s, s ∈ candidates requestedSize -> pool s svc = [])
   <-> (deposit requestedSize now svc).1 = inl (NoCapacity requestedSize)) /\
  (forall e, (deposit requestedSize now svc).1 = inl e ->
     e = NoCapacity requestedSize /\ (deposit requestedSize now svc).2 = svc) /\
  ((exists s, s ∈ candidates requestedSize /\ pool s svc <> [])
   <-> exists t, (deposit requestedSize now svc).1 = inr t).
Proof.
  intros Hr. pose proof (reachable_Inv _ Hr) as HI.
  destruct (deposit_cases requestedSize now svc HI)
    as [[Hempty Hfail]
       | (skipped & s & rest & id & q & Hc & _ & Hp & _ & _ & Hok)].
  - rewrite Hfail. cbn [fst snd]. split; [done |]. split.
    + by intros e [= <-].
    + split; [| by intros [t [=]]].
      intros (s & Hs & Hne). by specialize (Hempty s Hs).
  - rewrite Hok. cbn [fst snd].
    assert (s ∈ candidates requestedSize) as Hs
      by (rewrite Hc; apply elem_of_app; right; left).
    split; [| split].
    + split; [| done]. intros Hempty. specialize (Hempty s Hs). congruence.
    + by intros e [=].
    + split; [by eexists |]. intros _. exists s. split; [done |]. by rewrite Hp.
Qed.

Lemma deposit_outcome_witness :
  reachable large_drained /\
  (deposit LARGE 2000 large_drained).1 = inl (NoCapacity LARGE) /\
  (deposit LARGE 2000 large_drained).2 = large_drained /\
  exists t, (deposit MEDIUM 2000 large_drained).1 = inr t.
Proof.
  assert (reachable large_drained) as Hr
    by (apply reachable_drain, reachable_init).
  destruct (deposit_outcome LARGE 2000 large_drained Hr) as (_ & Hfail & _).
  destruct (deposit_outcome MEDIUM 2000 large_drained Hr) as (_ & _ & Hok).
  split; [exact Hr |]. split; [reflexivity |].
  split; [exact (proj2 (Hfail _ eq_refl)) |].
  apply Hok. exists MEDIUM. split; [left | vm_compute; discriminate].
Defined.

Lemma candidates_before requestedSize skipped s rest s' :
  candidates requestedSize = skipped ++ s :: rest ->
  s' ∈ candidates requestedSize ->
  (sizeToInt s' < sizeToInt s)%nat ->
  s' ∈ skipped.
Proof.
  intros Hc Hs' Hlt.
  destruct requestedSize, skipped as [|a [|b [|c sk]]]; simplify_eq/=;
    try (by destruct sk);
    destruct s'; simpl in *; try lia; set_solver.
Qed.

Lemma candidates_above requestedSize s :
  s ∈ candidates requestedSize <-> (sizeToInt requestedSize <= sizeToInt s)%nat.
Proof.
  destruct requestedSize, s; simpl; split; intros H; try lia; set_solver.
Qed.

(** The locker a deposit hands out in a reachable state is never of a
    smaller class than the one requested, and it is of the smallest class
    that had a free locker: every candidate pool of a smaller class was
    empty. *)
Theorem deposit_never_smaller requestedSize now svc t svc' :
  reachable svc ->
  deposit requestedSize now svc = (inr t, svc') ->
  exists s,
    classOf (lockerId t) = Some s /\
    (sizeToInt requestedSize <= sizeToInt s)%nat /\
    (forall s', (sizeToInt requestedSize <= sizeToInt s')%nat ->
                (sizeToInt s' < sizeToInt s)%nat -> pool s' svc = []) /\
    exists q, pool s svc = lockerId t :: q /\ pool s svc' = q.
Proof.
  intros Hr Hd. pose proof (reachable_Inv _ Hr) as HI.
  destruct (deposit_cases requestedSize now svc HI)
    as [[_ Hfail]
       | (skipped & s & rest & id & q & Hc & Hsk & Hp & Hcl & _ & Hok)].
  { rewrite Hfail in Hd. discriminate. }
  rewrite Hok in Hd. injection Hd as <- <-.
  exists s. split; [done |]. split.
  { apply candidates_above. rewrite Hc. apply elem_of_app. right. left. }
  split.
  - intros s' Hge Hlt. apply Hsk.
    eapply candidates_before; [done | by apply candidates_above | done].
  - exists q. split; [done |].
    rewrite set_activeTickets_set_pool, pool_set_pool.
    by rewrite decide_True.
Qed.

Lemma deposit_never_smaller_witness :
  reachable small_drained /\
  exists s,
    classOf "M-0" = Some s /\ (sizeToInt SMALL <= sizeToInt s)%nat.
Proof.
  assert (reachable small_drained) as Hr
    by (apply reachable_drain, reachable_init).
  split; [exact Hr |].
  destruct (deposit_never_smaller SMALL 2000 small_drained (mint "M-0" 2000)
              (deposit SMALL 2000 small_drained).2 Hr eq_refl)
    as (s & Hcl & Hge & _).
  exists s. split; [exact Hcl | exact Hge].
Defined.

(** ** One locker moves at a time *)

(** A successful deposit in a reachable state hands out a locker that was
    free and that no active ticket referred to; that one locker leaves the
    free lockers and joins the occupied ones.  The ticket is stamped with the
    clock reading and can be looked up under its code. *)
Theorem deposit_moves_one_locker requestedSize now svc t svc' :
  reachable svc ->
  deposit requestedSize now svc = (inr t, svc') ->
  lockerId t ∈ free svc /\
  (lockerId t ∉ occupied svc) /\
  free svc ≡ₚ lockerId t :: free svc' /\
  occupied svc' ≡ₚ lockerId t :: occupied svc /\
  creationTime t = now /\
  activeTickets svc' !! code t = Some t.
Proof.
  intros Hr Hd. pose proof (reachable_Inv _ Hr) as HI.
  destruct (deposit_cases requestedSize now svc HI)
    as [[_ Hfail]
       | (skipped & s & rest & id & q & Hc & Hsk & Hp & Hcl & Hfresh & Hok)].
  { rewrite Hfail in Hd. discriminate. }
  rewrite Hok in Hd. injection Hd as <- <-.
  destruct (Inv_pop _ _ _ _ HI Hp) as (Hfree & _ & _).
  change (lockerId (mint id now)) with id.
  split; [done |]. split.
  { pose proof (Inv_NoDup _ HI) as Hnd.
    apply NoDup_app in Hnd as (_ & Hdisj & _). by apply Hdisj. }
  split.
  { rewrite (free_set_pool_cons _ _ _ _ Hp). by destruct s. }
  split.
  { rewrite <- (activeTickets_set_pool s q svc) at 1.
    rewrite occupied_insert by by rewrite activeTickets_set_pool.
    by rewrite occupied_set_pool. }
  split; [done |]. cbn [activeTickets set_activeTickets].
  apply lookup_insert_eq.
Qed.

Lemma deposit_moves_one_locker_witness :
  reachable small_drained /\
  "M-0" ∈ free small_drained /\
  "M-0" ∉ occupied small_drained.
Proof.
  assert (reachable small_drained) as Hr
    by (apply reachable_drain, reachable_init).
  split; [exact Hr |].
  destruct (deposit_moves_one_locker SMALL 2000 small_drained (mint "M-0" 2000)
              (deposit SMALL 2000 small_drained).2 Hr eq_refl)
    as (Hin & Hout & _).
  split; [exact Hin | exact Hout].
Defined.

(** A successful pickup in a reachable state consumes exactly the ticket
    filed under the code, confirms with the locker of that ticket, and moves
    that one locker from the occupied lockers to the free ones. *)
Theorem pickup_moves_one_locker c svc msg svc' :
  reachable svc ->
  pickup c svc = (inr msg, svc') ->
  exists t,
    activeTickets svc !! c = Some t /\
    msg = confirmation (lockerId t) /\
    activeTickets svc' = delete c (activeTickets svc) /\
    free svc' ≡ₚ lockerId t :: free svc /\
    occupied svc ≡ₚ lockerId t :: occupied svc'.
Proof.
  intros Hr Hpk. pose proof (reachable_Inv _ Hr) as HI.
  destruct (activeTickets svc !! c) as [t|] eqn:Hk.
  2: { rewrite (pickup_absent _ _ Hk) in Hpk. discriminate. }
  rewrite (pickup_found _ _ _ Hk) in Hpk. injection Hpk as <- <-.
  exists t. split; [done |]. split; [done |].
  split; [apply activeTickets_release |].
  pose proof (occupied_lookup _ _ _ Hk) as Hocc.
  destruct (Inv_occupied_shape _ _ HI Hocc) as [_ [s Hs]].
  unfold release. rewrite (returnLocker_class _ _ _ Hs). split.
  - by rewrite free_set_pool_snoc.
  - rewrite occupied_set_pool. by rewrite (occupied_delete _ _ _ Hk).
Qed.

Lemma pickup_moves_one_locker_witness :
  reachable one_small /\
  exists t,
    activeTickets one_small !! "S-0-1000" = Some t /\
    confirmation "S-0" = confirmation (lockerId t).
Proof.
  assert (reachable one_small) as Hr
    by (apply reachable_deposit, reachable_init).
  split; [exact Hr |].
  destruct (pickup_moves_one_locker "S-0-1000" one_small (confirmation "S-0")
              (pickup "S-0-1000" one_small).2 Hr eq_refl)
    as (t & Hk & Hmsg & _).
  exists t. split; [exact Hk | exact Hmsg].
Defined.

(** ** Tickets stay valid until they are redeemed or expire *)

(** In a reachable state an active ticket is still filed under its code,
    unchanged, after any deposit, after the pickup of any other code, and
    after a sweep at an instant at which the ticket is not expired. *)
Theorem ticket_persists svc c t :
  reachable svc ->
  activeTickets svc !! c = Some t ->
  (forall requestedSize now,
     activeTickets (deposit requestedSize now svc).2 !! c = Some t) /\
  (forall c', c' <> c -> activeTickets (pickup c' svc).2 !! c = Some t) /\
  (forall order now,
     traversal order svc ->
     expired now t = false ->
     activeTickets (after (cleanup order now svc)) !! c = Some t).
Proof.
  intros Hr Hk. pose proof (reachable_Inv _ Hr) as HI.
  split; [| split].
  - intros requestedSize now.
    destruct (deposit_cases requestedSize now svc HI)
      as [[_ Hfail]
         | (skipped & s & rest & id & q & _ & _ & _ & _ & Hfresh & Hok)].
    + by rewrite Hfail.
    + rewrite Hok. cbn [snd activeTickets set_activeTickets].
      rewrite lookup_insert_ne; [done |]. intros Heq. congruence.
  - intros c' Hne. unfold pickup.
    destruct (activeTickets svc !! c') as [t'|]; [| done].
    cbn [snd]. rewrite returnLocker_tickets. cbn [activeTickets set_activeTickets].
    by rewrite lookup_delete_ne.
  - intros order now Ht He. by rewrite (cleanup_table _ _ _ _ Ht), Hk, He.
Qed.

Lemma ticket_persists_witness :
  reachable one_small /\
  activeTickets one_small !! "S-0-1000" = Some (mint "S-0" 1000) /\
  activeTickets (deposit LARGE 1000 one_small).2 !! "S-0-1000"
  = Some (mint "S-0" 1000).
Proof.
  assert (reachable one_small) as Hr
    by (apply reachable_deposit, reachable_init).
  assert (activeTickets one_small !! "S-0-1000" = Some (mint "S-0" 1000)) as Hk
    by (vm_compute; reflexivity).
  split; [exact Hr |]. split; [exact Hk |].
  exact (proj1 (ticket_persists one_small "S-0-1000" _ Hr Hk) LARGE 1000).
Defined.

(** ** The sweep and the order of the table *)

Lemma reclaimed_Permutation order1 order2 now :
  order1 ≡ₚ order2 -> reclaimed order1 now ≡ₚ reclaimed order2 now.
Proof. intros HP. unfold reclaimed. by rewrite HP. Qed.

(** Whatever order the table is visited in, a sweep leaves the same table of
    active tickets; each pool keeps its former content as a prefix and gains
    the same lockers, and the same lines are printed: only the order of the
    gained lockers and of the lines depends on the traversal. *)
Theorem sweep_order_irrelevant order1 order2 now svc :
  traversal order1 svc ->
  traversal order2 svc ->
  let run1 := cleanup order1 now svc in
  let run2 := cleanup order2 now svc in
  activeTickets (after run1) = activeTickets (after run2) /\
  printed run1 ≡ₚ printed run2 /\
  forall s, exists gained1 gained2,
    pool s (after run1) = pool s svc ++ gained1 /\
    pool s (after run2) = pool s svc ++ gained2 /\
    gained1 ≡ₚ gained2.
Proof.
  intros Ht1 Ht2 run1 run2. subst run1 run2.
  assert (order1 ≡ₚ order2) as HP.
  { unfold traversal in *. by rewrite Ht1, Ht2. }
  split; [| split].
  - by rewrite !cleanup_table_filter.
  - rewrite !cleanup_printed. by rewrite (reclaimed_Permutation _ _ _ HP).
  - intros s. eexists _, _. split; [apply cleanup_pools |].
    split; [apply cleanup_pools |].
    by rewrite (reclaimed_Permutation _ _ _ HP).
Qed.

Lemma sweep_order_irrelevant_witness :
  traversal small_drained_order small_drained /\
  traversal (reverse small_drained_order) small_drained /\
  activeTickets
    (after (cleanup small_drained_order four_days_later small_drained))
  = activeTickets
      (after (cleanup (reverse small_drained_order) four_days_later
                small_drained)).
Proof.
  assert (traversal small_drained_order small_drained) as Ht1
    by (unfold traversal; reflexivity).
  assert (traversal (reverse small_drained_order) small_drained) as Ht2
    by (unfold traversal; apply reverse_Permutation).
  split; [exact Ht1 |]. split; [exact Ht2 |].
  exact (proj1 (sweep_order_irrelevant small_drained_order
                  (reverse small_drained_order) four_days_later small_drained
                  Ht1 Ht2)).
Defined.

Lemma cleanup_loop_pickups now order : forall out svc,
  NoDup order.*1 ->
  (forall k t, (k, t) ∈ order -> activeTickets svc !! k = Some t) ->
  (foldl (cleanup_visit now) (out, svc) order).2
  = pickup_all (expired_keys order now) svc.
Proof.
  induction order as [|[k t] order IH]; intros out svc Hnd Hin; [done |].
  cbn [foldl]. rewrite expired_keys_cons. cbn [fst snd fmap list_fmap] in *.
  apply NoDup_cons in Hnd as [Hk Hnd].
  assert (activeTickets svc !! k = Some t) as Hlook by (apply Hin; left).
  destruct (expired now t) eqn:He.
  - rewrite (cleanup_visit_expired _ _ _ _ _ He).
    unfold pickup_all. cbn [app foldl]. rewrite (pickup_found _ _ _ Hlook).
    cbn [snd]. apply IH; [done |].
    intros k' t' Hin'. rewrite activeTickets_release.
    rewrite lookup_delete_ne; [apply Hin; by right |].
    intros <-. apply Hk. by apply (list_elem_of_fmap_2' fst _ (k, t')).
  - rewrite (cleanup_visit_fresh _ _ _ _ He). cbn [app].
    apply IH; [done |]. intros k' t' Hin'. apply Hin. by right.
Qed.

(** A sweep leaves the service in the state that picking up the codes of the
    expired tickets, one after the other in the order of the traversal,
    would leave it in. *)
Theorem sweep_as_pickups order now svc :
  traversal order svc ->
  after (cleanup order now svc) = pickup_all (expired_keys order now) svc.
Proof.
  intros Ht. unfold cleanup. cbn [after].
  apply cleanup_loop_pickups; [by eapply traversal_NoDup |].
  intros k t. by apply traversal_lookup.
Qed.

Lemma sweep_as_pickups_witness :
  traversal one_large_order one_large /\
  expired_keys one_large_order four_days_later = ["L-0-1000"] /\
  after (cleanup one_large_order four_days_later one_large)
  = pickup_all (expired_keys one_large_order four_days_later) one_large.
Proof.
  assert (traversal one_large_order one_large) as Ht
    by (unfold traversal; reflexivity).
  split; [exact Ht |]. split; [vm_compute; reflexivity |].
  exact (sweep_as_pickups one_large_order four_days_later one_large Ht).
Defined.

(** ** Shape of the pools *)

Lemma inventory_class_count s :
  length (filter (fun id => classOf id = Some s) inventory) = 10%nat.
Proof. destruct s; vm_compute; reflexivity. Qed.

(** In every reachable state no locker is listed twice among the free ones,
    each pool holds lockers of its own size class only, no pool holds more
    than the ten lockers seeded for its class, and there are at most thirty
    active tickets. *)
Theorem pools_well_formed svc :
  reachable svc ->
  NoDup (free svc) /\
  (forall s id, id ∈ pool s svc -> classOf id = Some s) /\
  (forall s, length (pool s svc) <= 10)%nat /\
  (length (tickets svc) <= 30)%nat.
Proof.
  intros Hr. pose proof (reachable_Inv _ Hr) as HI.
  pose proof (Inv_NoDup _ HI) as Hnd.
  apply NoDup_app in Hnd as (Hfree & _ & _).
  assert (forall s id, id ∈ pool s svc -> classOf id = Some s) as Hcls.
  { intros s id Hid. pose proof (inv_pools _ HI s) as HF.
    rewrite Forall_forall in HF. by apply HF. }
  split; [done |]. split; [done |]. split.
  - intros s. rewrite <- (inventory_class_count s).
    apply submseteq_length, NoDup_submseteq.
    + unfold free, pool in *. destruct s; simpl.
      * by apply NoDup_app in Hfree as (? & _ & _).
      * apply NoDup_app in Hfree as (_ & _ & Hfree).
        by apply NoDup_app in Hfree as (? & _ & _).
      * apply NoDup_app in Hfree as (_ & _ & Hfree).
        by apply NoDup_app in Hfree as (_ & _ & ?).
    + intros id Hid. apply list_elem_of_filter. split; [by apply Hcls |].
      rewrite <- (inv_conserve _ HI). apply elem_of_app. left.
      by apply (pool_free s).
  - pose proof (Permutation_length (inv_conserve _ HI)) as Hlen.
    rewrite length_app in Hlen. unfold occupied in Hlen.
    rewrite length_fmap in Hlen.
    change (length inventory) with 30%nat in Hlen. lia.
Qed.

Lemma pools_well_formed_witness :
  reachable small_drained /\
  NoDup (free small_drained) /\
  (length (pool MEDIUM small_drained) <= 10)%nat.
Proof.
  assert (reachable small_drained) as Hr
    by (apply reachable_drain, reachable_init).
  destruct (pools_well_formed small_drained Hr) as (Hnd & _ & Hlen & _).
  split; [exact Hr |]. split; [exact Hnd | exact (Hlen MEDIUM)].
Defined.

(** ** A code can come back *)

Lemma set_pool_same s svc : set_pool s (pool s svc) svc = svc.
Proof. by destruct svc, s. Qed.

(** The code of a ticket depends on the clock only through its reading
    modulo 10000.  When the locker a deposit takes is the only one in its
    pool, redeeming the ticket makes its code invalid, and the next deposit
    of that size at an instant with the same remainder issues the very same
    code, which then opens the locker again. *)
Theorem code_reused_after_pickup requestedSize now now' svc skipped s rest id :
  reachable svc ->
  candidates requestedSize = skipped ++ s :: rest ->
  (forall s', s' ∈ skipped -> pool s' svc = []) ->
  pool s svc = [id] ->
  Z.rem now' 10000 = Z.rem now 10000 ->
  let c := code (mint id now) in
  let svc1 := (deposit requestedSize now svc).2 in
  let svc2 := (pickup c svc1).2 in
  let svc3 := (deposit requestedSize now' svc2).2 in
  (deposit requestedSize now svc).1 = inr (mint id now) /\
  (pickup c svc1).1 = inr (confirmation id) /\
  (pickup c svc2).1 = inl (InvalidCode c) /\
  (deposit requestedSize now' svc2).1 = inr (mint id now') /\
  code (mint id now') = c /\
  (pickup c svc3).1 = inr (confirmation id).
Proof.
  intros Hr Hc Hsk Hp Hrem c svc1 svc2 svc3.
  pose proof (reachable_Inv _ Hr) as HI.
  destruct (Inv_pop _ _ _ _ HI Hp) as (Hfree & Hne & Hcl).
  assert (activeTickets svc !! c = None) as Hfresh
    by by apply Inv_fresh_code.
  pose proof (deposit_pop requestedSize now svc _ _ _ _ _ Hc Hsk Hp Hne) as Hd.
  assert (pickup c svc1
          = (inr (confirmation id), svc)) as Hpk.
  { subst svc1. rewrite Hd. cbn [snd].
    rewrite (pickup_found _ (mint id now)) by apply lookup_insert_eq.
    f_equal. unfold release. change (lockerId (mint id now)) with id.
    rewrite (returnLocker_class _ _ _ Hcl).
    cbn [activeTickets set_activeTickets].
    rewrite (delete_insert_id _ _ _ Hfresh).
    replace (set_activeTickets (activeTickets svc) _) with (set_pool s [] svc)
      by by destruct s.
    rewrite pool_set_pool, decide_True by done.
    replace (set_pool s ([] ++ [id]) (set_pool s [] svc))
      with (set_pool s [id] svc) by by destruct s.
    rewrite <- Hp. apply set_pool_same. }
  assert (svc2 = svc) as Hsvc2 by (subst svc2; by rewrite Hpk).
  assert (code (mint id now') = c) as Hcode.
  { subst c. unfold mint. cbn [code]. by rewrite Hrem. }
  pose proof (deposit_pop requestedSize now' svc _ _ _ _ _ Hc Hsk Hp Hne) as Hd'.
  split; [by rewrite Hd |]. split; [by rewrite Hpk |].
  split; [rewrite Hsvc2; by rewrite (pickup_absent _ _ Hfresh) |].
  split; [rewrite Hsvc2; by rewrite Hd' |]. split; [done |].
  subst svc3. rewrite Hsvc2, Hd'. cbn [snd]. rewrite <- Hcode.
  by rewrite (pickup_found _ (mint id now')) by apply lookup_insert_eq.
Qed.

Lemma code_reused_after_pickup_witness :
  reachable last_small /\
  pool SMALL last_small = ["S-9"] /\
  Z.rem 15000 10000 = Z.rem 5000 10000 /\
  code (mint "S-9" 15000) = code (mint "S-9" 5000) /\
  (pickup (code (mint "S-9" 5000))
     (deposit SMALL 15000
        (pickup (code (mint "S-9" 5000)) (deposit SMALL 5000 last_small).2).2).2).1
  = inr (confirmation "S-9").
Proof.
  assert (reachable last_small) as Hr
    by (apply reachable_drain, reachable_init).
  assert (candidates SMALL = [] ++ SMALL :: [MEDIUM; LARGE]) as Hc
    by reflexivity.
  assert (forall s', s' ∈ @nil Size -> pool s' last_small = []) as Hsk.
  { intros s' Hs'. by apply elem_of_nil in Hs'. }
  assert (pool SMALL last_small = ["S-9"]) as Hp by reflexivity.
  assert (Z.rem 15000 10000 = Z.rem 5000 10000) as Hrem by reflexivity.
  destruct (code_reused_after_pickup SMALL 5000 15000 last_small [] SMALL
              [MEDIUM; LARGE] "S-9" Hr Hc Hsk Hp Hrem)
    as (_ & _ & _ & _ & Hcode & Hagain).
  split; [exact Hr |]. split; [exact Hp |]. split; [exact Hrem |].
  split; [exact Hcode | exact Hagain].
Defined.

(** ** The two extremes of a sweep *)

(** A sweep at an instant at which no active ticket is older than three days
    does nothing at all: the service is unchanged and nothing is printed. *)
Theorem sweep_too_early order now svc :
  traversal order svc ->
  (forall k t, activeTickets svc !! k = Some t ->
     - 2 ^ 63 <= age now t <= threeDaysInMillis) ->
  cleanup order now svc = mkRun tt [] svc.
Proof.
  intros Ht Hage. unfold cleanup.
  rewrite cleanup_nothing_expired; [done |].
  intros [k t] Hin. cbn [snd].
  apply (traversal_lookup _ _ _ _ Ht) in Hin. specialize (Hage k t Hin).
  destruct (expired now t) eqn:He; [| done].
  apply expired_spec in He; [lia |].
  rewrite threeDaysInMillis_value in Hage. lia.
Qed.

Lemma sweep_too_early_witness :
  traversal one_small_order one_small /\
  cleanup one_small_order (1000 + threeDaysInMillis) one_small
  = mkRun tt [] one_small.
Proof.
  assert (traversal one_small_order one_small) as Ht
    by (unfold traversal; reflexivity).
  assert (forall k t, activeTickets one_small !! k = Some t ->
            - 2 ^ 63 <= age (1000 + threeDaysInMillis) t <= threeDaysInMillis)
    as Hage.
  { intros k t Hk.
    change (activeTickets one_small)
      with (<["S-0-1000" := mint "S-0" 1000]> (∅ : gmap string Ticket)) in Hk.
    apply lookup_insert_Some in Hk as [[_ <-] | [_ Hk]].
    - unfold age, threeDaysInMillis. simpl. lia.
    - by rewrite lookup_empty in Hk. }
  split; [exact Ht |].
  exact (sweep_too_early one_small_order (1000 + threeDaysInMillis) one_small
           Ht Hage).
Defined.

Lemma reclaimed_all_expired order now :
  Forall (fun e : string * Ticket => expired now e.2 = true) order ->
  reclaimed order now = (fun e : string * Ticket => lockerId e.2) <$> order.
Proof.
  induction 1 as [|e order He _ IH]; [done |].
  by rewrite reclaimed_cons, He, IH.
Qed.

(** A sweep of a reachable state at an instant at which every active ticket
    is expired empties the table and leaves every locker of the inventory
    free; the lockers it reclaims are the ones that were occupied. *)
Theorem sweep_all_expired order now svc :
  reachable svc ->
  traversal order svc ->
  Forall (fun e : string * Ticket => expired now e.2 = true) order ->
  activeTickets (after (cleanup order now svc)) = ∅ /\
  free (after (cleanup order now svc)) ≡ₚ inventory /\
  reclaimed order now ≡ₚ occupied svc.
Proof.
  intros Hr Ht Hall. pose proof (reachable_Inv _ Hr) as HI.
  assert (activeTickets (after (cleanup order now svc)) = ∅) as Hempty.
  { apply map_eq. intros k. rewrite (cleanup_table _ _ _ _ Ht), lookup_empty.
    destruct (activeTickets svc !! k) as [t|] eqn:Hk; [| done].
    rewrite Forall_forall in Hall.
    assert (expired now t = true) as ->; [| done].
    apply (Hall (k, t)). by apply (traversal_lookup order svc). }
  split; [done |]. split.
  - pose proof (inv_conserve _ (cleanup_Inv order now svc Ht HI)) as Hc.
    unfold occupied, tickets in Hc. rewrite Hempty, map_to_list_empty in Hc.
    by rewrite app_nil_r in Hc.
  - rewrite (reclaimed_all_expired _ _ Hall). unfold occupied, tickets.
    unfold traversal in Ht. rewrite Ht.
    apply reflexive_eq, (list_fmap_compose snd lockerId).
Qed.

Lemma sweep_all_expired_witness :
  reachable one_large /\
  traversal one_large_order one_large /\
  Forall (fun e : string * Ticket => expired four_days_later e.2 = true)
    one_large_order /\
  activeTickets (after (cleanup one_large_order four_days_later one_large)) = ∅.
Proof.
  assert (reachable one_large) as Hr
    by (apply reachable_deposit, reachable_init).
  assert (traversal one_large_order one_large) as Ht
    by (unfold traversal; reflexivity).
  assert (Forall (fun e : string * Ticket => expired four_days_later e.2 = true)
            one_large_order) as Hall.
  { unfold one_large_order.
    let l := eval vm_compute in (map_to_list (activeTickets one_large)) in
    change (map_to_list (activeTickets one_large)) with l.
    constructor; [vm_compute; reflexivity | constructor]. }
  split; [exact Hr |]. split; [exact Ht |]. split; [exact Hall |].
  exact (proj1 (sweep_all_expired one_large_order four_days_later one_large
                  Hr Ht Hall)).
Defined.

(** ** The demonstration driver *)

Lemma bind_returns {A B : Type} (m : Stmt A) (k : A -> Stmt B) w a w1 :
  m w = (inr a, w1) -> bind m k w = k a w1.
Proof. intros Hm. unfold bind. by rewrite Hm. Qed.

Lemma main_before_cleanup_run :
  main_before_cleanup main_start
  = (inr tt, mkWorld demo_service (mkClock demo_time) demo_prefix).
Proof. vm_compute. reflexivity. Qed.

Lemma demo_service_reachable : reachable demo_service.
Proof.
  assert (demo_service
          = (deposit LARGE 1000
               (pickup "S-0-1000"
                  (deposit SMALL 1000
                     (drain SMALL 9 1000 (deposit SMALL 1000 init).2)).2).2).2)
    as -> by (vm_compute; reflexivity).
  apply reachable_deposit, reachable_pickup, reachable_deposit,
    reachable_drain, reachable_deposit, reachable_init.
Qed.

(** Whatever order the sweep visits the table in, [main] finishes with status
    0 and writes nothing to the error stream: no deposit or pickup of the
    demonstration throws.  The second ticket it prints is for the MEDIUM
    locker M-0, as the source expects.  The sweep, four days after every
    deposit, reclaims the lockers of all eleven tickets still active, not
    only the LARGE one, so the run ends with an empty table and all thirty
    lockers free. *)
Theorem main_demo order :
  traversal order demo_service ->
  status (main order) = 0 /\
  stderr (main order) = [] /\
  stdout (main order)
  = demo_prefix ++ (expiry_line <$> reclaimed order demo_time)
      ++ [""; "Demo Completed."] /\
  reclaimed order demo_time ≡ₚ demo_outstanding /\
  activeTickets (after (cleanup order demo_time demo_service)) = ∅ /\
  free (after (cleanup order demo_time demo_service)) ≡ₚ inventory.
Proof.
  intros Ht.
  assert (main order
          = mkExit 0
              (demo_prefix ++ printed (cleanup order demo_time demo_service)
                 ++ [""; "Demo Completed."]) []) as Hmain.
  { unfold main, main_try.
    rewrite (bind_returns _ _ _ _ _ main_before_cleanup_run).
    unfold bind, call_cleanup, println, currentTimeMillis.
    cbn [service mockClock cout time fst snd].
    by rewrite <- !(assoc_L (++)). }
  rewrite Hmain. cbn [status stderr stdout]. rewrite cleanup_printed.
  assert (reclaimed order demo_time ≡ₚ demo_outstanding) as Hrec.
  { rewrite (reclaimed_Permutation _ _ _ Ht).
    apply (bool_decide_unpack _). by vm_compute. }
  split; [done |]. split; [done |]. split; [done |]. split; [done |].
  assert (activeTickets (after (cleanup order demo_time demo_service)) = ∅)
    as Hempty.
  { rewrite (cleanup_table_filter _ _ _ Ht).
    apply (bool_decide_unpack _). by vm_compute. }
  split; [done |].
  pose proof (inv_conserve _
                (cleanup_Inv order demo_time demo_service Ht
                   (reachable_Inv _ demo_service_reachable))) as Hc.
  unfold occupied, tickets in Hc. rewrite Hempty, map_to_list_empty in Hc.
  by rewrite app_nil_r in Hc.
Qed.

Lemma main_demo_witness :
  traversal (map_to_list (activeTickets demo_service)) demo_service /\
  status (main (map_to_list (activeTickets demo_service))) = 0 /\
  stderr (main (map_to_list (activeTickets demo_service))) = [].
Proof.
  assert (traversal (map_to_list (activeTickets demo_service)) demo_service)
    as Ht by (unfold traversal; reflexivity).
  destruct (main_demo _ Ht) as (Hstatus & Herr & _).
  split; [exact Ht |]. split; [exact Hstatus | exact Herr].
Defined.

(** ** Order of allocation *)

Lemma candidate_lockers_empty requestedSize svc :
  (forall s, s ∈ candidates requestedSize -> pool s svc = []) ->
  candidate_lockers requestedSize svc = [].
Proof.
  intros He. unfold candidate_lockers.
  induction (candidates requestedSize) as [|s l IH]; [done |].
  cbn [fmap list_fmap concat]. rewrite (He s) by left.
  apply IH. intros s' Hs'. apply He. by right.
Qed.

Lemma candidate_lockers_pop requestedSize svc skipped s rest id q m :
  candidates requestedSize = skipped ++ s :: rest ->
  (forall s', s' ∈ skipped -> pool s' svc = []) ->
  pool s svc = id :: q ->
  candidate_lockers requestedSize svc
  = id :: candidate_lockers requestedSize
            (set_activeTickets m (set_pool s q svc)).
Proof.
  intros Hc Hsk Hp. unfold candidate_lockers, pool in *.
  destruct requestedSize, skipped as [|a [|b [|c sk]]]; simplify_eq/=;
    try (by destruct sk);
    try (assert (queues0 svc = []) as -> by (apply (Hsk SMALL); set_solver));
    try (assert (queues1 svc = []) as -> by (apply (Hsk MEDIUM); set_solver));
    rewrite ?Hp; done.
Qed.

(** Consecutive deposits of one size from a reachable state hand out the free
    lockers of the candidate pools in queue order, the pool of the requested
    size first and the larger pools after it; once these lockers are used up
    every further deposit fails with the no-capacity error. *)
Theorem deposits_in_queue_order requestedSize nows svc :
  reachable svc ->
  (deposit_each requestedSize nows svc).1
  = zip_with (fun id now => inr (mint id now))
      (candidate_lockers requestedSize svc) nows
    ++ replicate (length nows - length (candidate_lockers requestedSize svc))
         (inl (NoCapacity requestedSize)).
Proof.
  revert svc. induction nows as [|now nows IH]; intros svc Hr.
  { cbn. by destruct (candidate_lockers requestedSize svc). }
  cbn [deposit_each fst].
  pose proof (reachable_deposit requestedSize now svc Hr) as Hr'.
  rewrite (IH _ Hr'). pose proof (reachable_Inv _ Hr) as HI.
  destruct (deposit_cases requestedSize now svc HI)
    as [[Hempty Hfail]
       | (skipped & s & rest & id & q & Hc & Hsk & Hp & _ & _ & Hok)].
  - rewrite Hfail. cbn [fst snd].
    rewrite (candidate_lockers_empty _ _ Hempty).
    cbn [zip_with length app]. by rewrite !Nat.sub_0_r.
  - rewrite Hok. cbn [fst snd].
    rewrite (candidate_lockers_pop _ svc _ _ _ _ _
               (<[code (mint id now) := mint id now]> (activeTickets svc))
               Hc Hsk Hp).
    reflexivity.
Qed.

Lemma deposits_in_queue_order_witness :
  reachable last_small /\
  (deposit_each SMALL [5000; 6000; 7000] last_small).1
  = [inr (mint "S-9" 5000); inr (mint "M-0" 6000); inr (mint "M-1" 7000)].
Proof.
  assert (reachable last_small) as Hr
    by (apply reachable_drain, reachable_init).
  split; [exact Hr |].
  exact (deposits_in_queue_order SMALL [5000; 6000; 7000] last_small Hr).
Defined.

(** A deposit never touches the pool of a size class smaller than the one
    requested, in any state and whether it succeeds or fails. *)
Theorem deposit_leaves_smaller_pools requestedSize now svc s :
  (sizeToInt s < sizeToInt requestedSize)%nat ->
  pool s (deposit requestedSize now svc).2 = pool s svc.
Proof.
  intros Hlt. rewrite deposit_unfold.
  destruct (findBestFit_spec requestedSize svc)
    as [Hempty | skipped s0 rest id q Hc Hsk Hp]; cbn [fst snd]; [done |].
  assert (s0 ∈ candidates requestedSize) as Hs0
    by (rewrite Hc; apply elem_of_app; right; left).
  apply candidates_above in Hs0.
  assert (s <> s0) as Hne by (intros ->; lia).
  destruct id as [|c id']; cbn [snd];
    rewrite ?set_activeTickets_set_pool, pool_set_pool;
    by rewrite decide_False.
Qed.

Lemma deposit_leaves_smaller_pools_witness :
  (sizeToInt SMALL < sizeToInt LARGE)%nat /\
  pool SMALL (deposit LARGE 2000 init).2 = pool SMALL init.
Proof.
  assert (sizeToInt SMALL < sizeToInt LARGE)%nat as Hlt by (simpl; lia).
  split; [exact Hlt |].
  exact (deposit_leaves_smaller_pools LARGE 2000 init SMALL Hlt).
Defined.
